(** * Group convolution on a torus grid: a shallow embedding of
      [integral_convolve.py] and the properties of its numeric pipeline.

    Real numbers stand for the floats of the source (exact arithmetic);
    grid sizes and indices are [nat] (they come from [range]); the 0/1
    entries of the permutation matrices are [Z]; Python lists and numpy
    arrays are lists, a matrix being the list of its rows.  A Python
    operation that can raise (a negative index past the front, [pop] on
    an empty list) returns [option]. *)

From Stdlib Require Import List Arith ZArith Lia Reals Lra Bool.
Import ListNotations.

(** ** Python list helpers *)

Module Py.

(** [l[k]] for a possibly negative index [k]: a negative index counts from
    the end, an index outside [-len, len) raises [IndexError] ([None]). *)
Definition getitem {A : Type} (l : list A) (k : Z) : option A :=
  let len := Z.of_nat (length l) in
  if (k <? 0)%Z
  then (if (len + k <? 0)%Z then None else nth_error l (Z.to_nat (len + k)))
  else nth_error l (Z.to_nat k).

(** [l.pop(-1)]: the last element and the list without it; [IndexError]
    on the empty list. *)
Definition pop_last {A : Type} (l : list A) : option (A * list A) :=
  match rev l with
  | [] => None
  | x :: r => Some (x, rev r)
  end.

(** A list comprehension whose element expression can raise. *)
Fixpoint mapM {A B : Type} (f : A -> option B) (l : list A) : option (list B) :=
  match l with
  | [] => Some []
  | x :: t =>
      match f x with
      | None => None
      | Some y =>
          match mapM f t with
          | None => None
          | Some ys => Some (y :: ys)
          end
      end
  end.

(** [range(n)] and [range(a, b)]. *)
Definition range (n : nat) : list nat := seq 0 n.
Definition range2 (a b : nat) : list nat := seq a (b - a).

(** [range(n-1, -1, -1)]. *)
Definition range_down (n : nat) : list nat := rev (seq 0 n).

(** [sorted(l, key=key)]: the sort is stable, so its result is that of a
    stable insertion sort. *)
Fixpoint insert_by {A : Type} (key : A -> nat) (x : A) (l : list A) : list A :=
  match l with
  | [] => [x]
  | y :: t => if key x <=? key y then x :: y :: t else y :: insert_by key x t
  end.

Definition sorted {A : Type} (key : A -> nat) (l : list A) : list A :=
  fold_right (insert_by key) [] l.

End Py.

Open Scope R_scope.

(** ** Geometry *)

Record Point3D : Type := mkPoint { px : R; py : R; pz : R }.

Definition torus_point (theta phi R r : R) : Point3D :=
  mkPoint ((R + r * cos theta) * cos phi)
          ((R + r * cos theta) * sin phi)
          (r * sin theta).

(** [point2 - point1] and [np.linalg.norm]. *)
Definition psub (p q : Point3D) : Point3D :=
  mkPoint (px p - px q) (py p - py q) (pz p - pz q).

Definition norm (p : Point3D) : R :=
  sqrt (px p * px p + py p * py p + pz p * pz p).

(** ** Kernels *)

Definition Kernel : Type := Point3D -> Point3D -> R.

(** [ln] is total in the reals of the library ([ln x = 0] for [x <= 0]);
    numpy gives [-inf] at distance zero.  The properties that involve
    [log_kernel] values are stated where no such evaluation occurs
    ([log_evaluations_defined] below). *)
Definition log_kernel : Kernel := fun point1 point2 => ln (norm (psub point2 point1)).

Definition exp_kernel : Kernel := fun point1 point2 => exp (- norm (psub point2 point1)).

Definition square_distance_kernel : Kernel :=
  fun point1 point2 => (norm (psub point2 point1)) ^ 2.

(** ** Matrix assembly *)

(** [i // N] and [i % N] on the non-negative indices of the grid.  With
    [N = 0] the source raises [ZeroDivisionError]; the properties below
    take [1 <= N]. *)
Definition matrix_entry (i j N : nat) (kernel_func : Kernel) (R r : R)
    (self_interact : bool) : Rdefinitions.R :=
  let theta1 := INR (i / N) * (2 * PI / INR N) in
  let phi1 := INR (i mod N) * (2 * PI / INR N) in
  let point1 := torus_point theta1 phi1 R r in
  let theta2 := INR (j / N) * (2 * PI / INR N) in
  let phi2 := INR (j mod N) * (2 * PI / INR N) in
  let point2 := torus_point theta2 phi2 R r in
  if (i =? j)%nat && negb self_interact
  then 0
  else (2 * PI / INR N) ^ 2 * kernel_func point1 point2 * r * (R + r * cos theta2).

Definition full_matrix (N : nat) (kernel_func : Kernel) (lamb R r : R)
    (self_interact : bool) : list (list Rdefinitions.R) :=
  map (fun i =>
         map (fun j =>
                let v := lamb * matrix_entry i j N kernel_func R r self_interact in
                if (i =? j)%nat then v + 1 else v)
             (Py.range (N ^ 2)))
      (Py.range (N ^ 2)).

Definition get_filter (N : nat) (kernel_func : Kernel) (lamb R r : R)
    (self_interact : bool) : list Rdefinitions.R :=
  [lamb * matrix_entry 0 0 N kernel_func R r self_interact + 1]
  ++ map (fun j => lamb * matrix_entry 0 j N kernel_func R r self_interact)
         (Py.range2 1 (N ^ 2)).

(** ** Forcing and reference functions *)

Definition f (theta phi : R) : R := (theta - PI) ^ 2 + (phi - PI) ^ 2.

Definition g (theta phi lamb r : R) : R :=
  (theta - PI) ^ 2 + (phi - PI) ^ 2
  + lamb * 2 / 3 * PI ^ 2 * r *
    (8 * PI ^ 2 + 48 * r + (3 + 12 * PI ^ 2) * r ^ 2 + 24 * r ^ 3
     + (8 * PI ^ 2 * r + 24 * r ^ 2) * cos theta
     + (-24 - 12 * r ^ 2) * cos phi
     + (-12 * r ^ 3 - 24 * r) * cos theta * cos phi).

Definition discretized_f (N : nat) : list R :=
  flat_map (fun i =>
              map (fun j => f (INR i * 2 * PI / INR N) (INR j * 2 * PI / INR N))
                  (Py.range N))
           (Py.range N).

Definition discretized_g (lamb r : R) (N : nat) : list R :=
  flat_map (fun i =>
              map (fun j => g (INR i * 2 * PI / INR N) (INR j * 2 * PI / INR N) lamb r)
                  (Py.range N))
           (Py.range N).

(** ** Driver constants *)

Definition driver_N_list : list Z := [4; 6; 8; 10; 12; 14; 16; 32]%Z.
Definition plot_x_list : list Z := [4; 8; 12; 16; 20; 24; 28; 32]%Z.

(** ** Integer matrices: the group representations *)

Definition ZMatrix : Type := list (list Z).

(** [[1 if j == i else 0 for j in range(N)]] *)
Definition unit_row (N i : nat) : list Z :=
  map (fun j => if (j =? i)%nat then 1%Z else 0%Z) (Py.range N).

Definition get_cyclic_reps (N : nat) : option (list ZMatrix) :=
  let A := map (unit_row N) (Py.range_down N) in
  match
    Py.mapM (fun i =>
               Py.mapM (fun j => Py.getitem A (Z.of_nat i - Z.of_nat j)) (Py.range N))
            (Py.range N)
  with
  | None => None
  | Some perms =>
      match Py.pop_last perms with
      | None => None
      | Some (I_, perms_rest) => Some ([I_] ++ perms_rest)
      end
  end.

(** [np.kron] of two 2-D arrays. *)
Definition kron (A B : ZMatrix) : ZMatrix :=
  flat_map (fun ra => map (fun rb => flat_map (fun a => map (fun b => (a * b)%Z) rb) ra) B) A.

(** [mat[:, c]] *)
Definition column (mat : ZMatrix) (c : nat) : list Z :=
  map (fun row => nth c row 0%Z) mat.

(** [np.argmax]: the index of the first occurrence of the maximum. *)
Fixpoint argmax_from (best : Z) (besti i : nat) (l : list Z) : nat :=
  match l with
  | [] => besti
  | x :: t =>
      if (best <? x)%Z then argmax_from x i (S i) t
      else argmax_from best besti (S i) t
  end.

Definition argmax (l : list Z) : nat :=
  match l with
  | [] => 0%nat
  | x :: t => argmax_from x 0 1 t
  end.

(** [mat.T] *)
Definition transpose (mat : ZMatrix) : ZMatrix :=
  map (fun c => column mat c) (Py.range (length (hd [] mat))).

Definition get_cyclic_product_reps (N : nat) : option (list ZMatrix) :=
  match get_cyclic_reps N with
  | None => None
  | Some group1 =>
      match get_cyclic_reps N with
      | None => None
      | Some group2 =>
          let reps := flat_map (fun mat1 => map (fun mat2 => kron mat1 mat2) group2) group1 in
          let sorted_reps := Py.sorted (fun mat => argmax (column mat 0)) reps in
          Some (map transpose sorted_reps)
      end
  end.

(** [A @ B] on integer matrices. *)
Definition zdot (u v : list Z) : Z :=
  fold_left Z.add (map (fun p => (fst p * snd p)%Z) (combine u v)) 0%Z.

Definition matmul (A B : ZMatrix) : ZMatrix :=
  map (fun ra => map (fun c => zdot ra (column B c)) (Py.range (length (hd [] B)))) A.

(** ** Real matrices and the driver's reconstruction loop *)

Definition RMatrix : Type := list (list R).

Definition zeros (n m : nat) : RMatrix := repeat (repeat 0 m) n.

Definition madd (A B : RMatrix) : RMatrix :=
  map (fun p => map (fun q => fst q + snd q) (combine (fst p) (snd p))) (combine A B).

(** [c * mat] for a float [c] and an integer array [mat]. *)
Definition mscale (c : R) (mat : ZMatrix) : RMatrix :=
  map (map (fun x => c * IZR x)) mat.

(** Lines 130-134 of the driver: [reps], [filter] and the accumulation of
    [approx].  The indices [i] of [filter[i]] and [reps[i]] run over
    [range(N**2)], the length of both lists. *)
Definition driver_approx (N : nat) (kernel : Kernel) (lamb R r : R)
    (self_interact : bool) : option RMatrix :=
  match get_cyclic_product_reps N with
  | None => None
  | Some reps =>
      let filter := get_filter N kernel lamb R r self_interact in
      Some (fold_left
              (fun approx i => madd approx (mscale (nth i filter 0) (nth i reps [])))
              (Py.range (N ^ 2))
              (zeros (N ^ 2) (N ^ 2)))
  end.

(** Entry [(i, j)] of a matrix. *)
Definition zentry (M : ZMatrix) (i j : nat) : Z := nth j (nth i M []) 0%Z.
Definition rentry (M : RMatrix) (i j : nat) : R := nth j (nth i M []) 0.

Definition identity_matrix (n : nat) : ZMatrix :=
  map (fun i => map (fun j => if (i =? j)%nat then 1%Z else 0%Z) (seq 0 n)) (seq 0 n).

(** ** Vocabulary of the specifications *)

(** The [n] by [m] matrix whose [(i, j)] entry is [F i j]. *)
Definition tabulate {T : Type} (n m : nat) (F : nat -> nat -> T) : list (list T) :=
  map (fun i => map (fun j => F i j) (seq 0 m)) (seq 0 n).

(** Shift by [k] in Z_N: row [j] has its 1 in column [(j - k) mod N]. *)
Definition cyc_perm (N k : nat) : ZMatrix :=
  tabulate N N (fun j c => if (c =? (j + N - k) mod N)%nat then 1%Z else 0%Z).

(** An [n] by [n] matrix of zeros and ones with exactly one 1 in each row
    and in each column. *)
Definition is_permutation_matrix (n : nat) (M : ZMatrix) : Prop :=
  length M = n /\
  (forall row, In row M -> length row = n) /\
  (forall i j, (i < n)%nat -> (j < n)%nat -> zentry M i j = 0%Z \/ zentry M i j = 1%Z) /\
  (forall i, (i < n)%nat ->
     exists j, (j < n)%nat /\ zentry M i j = 1%Z /\
               forall j', (j' < n)%nat -> zentry M i j' = 1%Z -> j' = j) /\
  (forall j, (j < n)%nat ->
     exists i, (i < n)%nat /\ zentry M i j = 1%Z /\
               forall i', (i' < n)%nat -> zentry M i' j = 1%Z -> i' = i).

(** Entry [(i, j)] of the [k]-th product representation, [k = a * N + b]:
    the transposed Kronecker product of the shifts by [a] and by [b]. *)
Definition prod_entry (N k i j : nat) : Z :=
  ((if (i / N =? (j / N + N - k / N) mod N)%nat then 1 else 0)
   * (if (i mod N =? (j mod N + N - k mod N) mod N)%nat then 1 else 0))%Z.

Definition prod_perm (N k : nat) : ZMatrix :=
  tabulate (N * N) (N * N) (prod_entry N k).

(** The column in which row [i] of [prod_perm N k] has its 1, and the row
    in which column [j] has it. *)
Definition prod_sigma (N k i : nat) : nat :=
  (((i / N + k / N) mod N) * N + (i mod N + k mod N) mod N)%nat.

Definition prod_tau (N k j : nat) : nat :=
  (((j / N + N - k / N) mod N) * N + (j mod N + N - k mod N) mod N)%nat.

(** The index [k] of the one representation with a 1 at [(i, j)]. *)
Definition kappa (N i j : nat) : nat :=
  (((j / N + N - i / N) mod N) * N + (j mod N + N - i mod N) mod N)%nat.

(** The sum of [F k] over the indices [k] of a list. *)
Definition rsum (F : nat -> R) (l : list nat) : R :=
  fold_right (fun k acc => F k + acc) 0 l.

(** The action of the group element [(a, b)] of Z_N x Z_N on a flattened
    index: [a] is added to the theta index and [b] to the phi index. *)
Definition shift_index (N a b i : nat) : nat :=
  (((i / N + a) mod N) * N + (i mod N + b) mod N)%nat.

(** A kernel that depends on its two points through their distance only. *)
Definition distance_kernel (K : Kernel) : Prop :=
  exists h : R -> R, forall p q, K p q = h (norm (psub q p)).

(** [A @ v] for an integer matrix and a vector. *)
Definition matvec (A : ZMatrix) (v : list Z) : list Z :=
  map (fun row => zdot row v) A.

(** Line 145 of the driver, [np.mean(np.abs(sol - f_vec))], for two
    vectors of the same length. *)
Definition mean_abs_error (sol f_vec : list R) : R :=
  fold_right Rplus 0 (map (fun p => Rabs (fst p - snd p)) (combine sol f_vec))
  / INR (length (combine sol f_vec)).

(** Mirror images of a flattened index: the theta index, or the phi
    index, replaced by its opposite modulo [N]. *)
Definition reflect_theta (N i : nat) : nat :=
  (((N - i / N) mod N) * N + i mod N)%nat.

Definition reflect_phi (N i : nat) : nat :=
  ((i / N) * N + (N - i mod N) mod N)%nat.

(** The torus point of the flattened grid index [i], as [matrix_entry]
    decodes it. *)
Definition grid_point (N i : nat) (R r : R) : Point3D :=
  torus_point (INR (i / N) * (2 * PI / INR N)) (INR (i mod N) * (2 * PI / INR N)) R r.

(** No evaluation of the logarithm at distance zero while the matrix is
    assembled: when the kernel is [log_kernel], the diagonal is skipped
    ([self_interact] false) and distinct grid indices give distinct points.
    Under this condition [ln] is only applied to positive distances, where
    it agrees with [np.log]; for any other kernel nothing is required. *)
Definition log_evaluations_defined (N : nat) (kernel : Kernel) (R r : R)
    (self_interact : bool) : Prop :=
  kernel = log_kernel ->
  self_interact = false /\
  forall i j, (i < N ^ 2)%nat -> (j < N ^ 2)%nat -> i <> j ->
              grid_point N i R r <> grid_point N j R r.

(** * Properties *)

(** Case analysis on every boolean comparison of naturals in the goal. *)
Ltac case_bounds :=
  repeat match goal with
         | |- context [(?x <=? ?y)%nat] => destruct (Nat.leb_spec x y)
         | |- context [(?x <? ?y)%nat] => destruct (Nat.ltb_spec x y)
         end;
  cbn [andb]; try lia.


(** ** List facts used throughout *)

Section ListFacts.
Context {A B : Type}.

Lemma length_flat_map_uniform (F : A -> list B) (l : list A) (p : nat) :
  (forall x, In x l -> length (F x) = p) ->
  length (flat_map F l) = (length l * p)%nat.
Proof.
  induction l as [|a l IH]; intros H; simpl; [reflexivity|].
  rewrite length_app, H by (left; reflexivity).
  rewrite IH by (intros; apply H; right; assumption). reflexivity.
Qed.

Lemma nth_flat_map_uniform (F : A -> list B) (l : list A) (p : nat) (d : B) (da : A) :
  (forall x, In x l -> length (F x) = p) ->
  forall i, (i < length l * p)%nat ->
  nth i (flat_map F l) d = nth (i mod p) (F (nth (i / p) l da)) d.
Proof.
  induction l as [|a l IH]; intros H i Hi; simpl in Hi; [lia|].
  assert (Hp : p <> 0%nat) by (intros ->; lia).
  simpl flat_map.
  destruct (Nat.lt_ge_cases i p) as [Hlt|Hge].
  - rewrite app_nth1 by (rewrite H by (left; reflexivity); assumption).
    rewrite Nat.div_small, Nat.mod_small by assumption. reflexivity.
  - rewrite app_nth2 by (rewrite H by (left; reflexivity); assumption).
    rewrite H by (left; reflexivity).
    rewrite IH by (try (intros; apply H; right; assumption); lia).
    replace i with ((i - p) + 1 * p)%nat at 3 4 by lia.
    rewrite Nat.div_add, Nat.Div0.mod_add by assumption.
    replace ((i - p) / p + 1)%nat with (S ((i - p) / p)) by lia.
    reflexivity.
Qed.

Lemma nth_map_seq (F : nat -> B) (a n i : nat) (d : B) :
  (i < n)%nat -> nth i (map F (seq a n)) d = F (a + i)%nat.
Proof.
  intros Hi.
  rewrite (nth_indep _ d (F 0%nat)) by (rewrite length_map, length_seq; assumption).
  rewrite map_nth, seq_nth by assumption. reflexivity.
Qed.

Lemma mapM_total (F : A -> option B) (G : A -> B) (l : list A) :
  (forall x, In x l -> F x = Some (G x)) -> Py.mapM F l = Some (map G l).
Proof.
  induction l as [|a l IH]; intros H; simpl; [reflexivity|].
  rewrite H by (left; reflexivity).
  rewrite IH by (intros; apply H; right; assumption). reflexivity.
Qed.
End ListFacts.

Lemma pow2_mul (N : nat) : (N ^ 2 = N * N)%nat.
Proof. simpl. lia. Qed.

Lemma div_lt_sq (N i : nat) : (i < N * N -> i / N < N)%nat.
Proof. intros H. apply Nat.Div0.div_lt_upper_bound. assumption. Qed.

Lemma mod_lt_pos (N i : nat) : (1 <= N -> i mod N < N)%nat.
Proof. intros H. apply Nat.mod_upper_bound. lia. Qed.

(** ** Geometry and kernels *)

(** C7: the xy-projection of a torus point has squared norm
    [(R + r cos theta)^2], whatever [phi] is; [torus_point] is a total
    function of four reals. *)
Theorem torus_point_xy_norm :
  forall theta phi R r : R,
    (exists p, torus_point theta phi R r = p) /\
    px (torus_point theta phi R r) ^ 2 + py (torus_point theta phi R r) ^ 2
      = (R + r * cos theta) ^ 2 /\
    (forall phi' : Rdefinitions.R,
        px (torus_point theta phi' R r) ^ 2 + py (torus_point theta phi' R r) ^ 2
        = px (torus_point theta phi R r) ^ 2 + py (torus_point theta phi R r) ^ 2).
Proof.
  assert (E : forall theta phi R r : Rdefinitions.R,
             px (torus_point theta phi R r) ^ 2 + py (torus_point theta phi R r) ^ 2
             = (R + r * cos theta) ^ 2).
  { intros theta phi R r. simpl.
    transitivity ((R + r * cos theta) ^ 2 * ((sin phi)² + (cos phi)²)).
    - unfold Rsqr. ring.
    - rewrite sin2_cos2. ring. }
  intros theta phi R r. split; [eexists; reflexivity|]. split.
  - apply E.
  - intros phi'. rewrite !E. reflexivity.
Qed.

Lemma norm_psub_sym (p q : Point3D) : norm (psub p q) = norm (psub q p).
Proof. unfold norm, psub. simpl. f_equal. ring. Qed.

(** C8: the squared-distance and exponential kernels are symmetric. *)
Theorem kernel_symmetry :
  forall p1 p2 : Point3D,
    square_distance_kernel p1 p2 = square_distance_kernel p2 p1 /\
    exp_kernel p1 p2 = exp_kernel p2 p1.
Proof.
  intros p1 p2. unfold square_distance_kernel, exp_kernel.
  rewrite (norm_psub_sym p2 p1). split; reflexivity.
Qed.

(** ** Matrix assembly *)

(** C5: [matrix_entry] is exactly 0 on the diagonal when self-interaction
    is off, and otherwise the quadrature-weighted kernel value, the weight
    being taken at the second point's theta. *)
Theorem matrix_entry_spec :
  forall (N i j : nat) (kernel : Kernel) (R r : R) (self_interact : bool),
    (1 <= N)%nat -> (i < N ^ 2)%nat -> (j < N ^ 2)%nat ->
    let theta1 := INR (i / N) * (2 * PI / INR N) in
    let phi1 := INR (i mod N) * (2 * PI / INR N) in
    let theta2 := INR (j / N) * (2 * PI / INR N) in
    let phi2 := INR (j mod N) * (2 * PI / INR N) in
    let p1 := torus_point theta1 phi1 R r in
    let p2 := torus_point theta2 phi2 R r in
    (i = j /\ self_interact = false ->
     matrix_entry i j N kernel R r self_interact = 0) /\
    (~ (i = j /\ self_interact = false) ->
     matrix_entry i j N kernel R r self_interact
     = (2 * PI / INR N) ^ 2 * kernel p1 p2 * r * (R + r * cos theta2)).
Proof.
  intros N i j kernel R r si _ _ _. cbv zeta. unfold matrix_entry. split.
  - intros [-> ->]. rewrite Nat.eqb_refl. reflexivity.
  - intros Hn. destruct (Nat.eqb_spec i j) as [E|E]; destruct si; simpl;
      try reflexivity.
    exfalso. apply Hn. split; [assumption | reflexivity].
Qed.

Lemma matrix_entry_spec_witness :
  (5%nat = 5%nat /\ false = false ->
   matrix_entry 5 5 4 exp_kernel 1 (1/20) false = 0) /\
  (~ (5%nat = 5%nat /\ false = false) ->
   matrix_entry 5 5 4 exp_kernel 1 (1/20) false
   = (2 * PI / INR 4) ^ 2
     * exp_kernel
         (torus_point (INR (5 / 4) * (2 * PI / INR 4)) (INR (5 mod 4) * (2 * PI / INR 4))
                      1 (1/20))
         (torus_point (INR (5 / 4) * (2 * PI / INR 4)) (INR (5 mod 4) * (2 * PI / INR 4))
                      1 (1/20))
     * (1/20) * (1 + (1/20) * cos (INR (5 / 4) * (2 * PI / INR 4)))).
Proof.
  apply (matrix_entry_spec 4 5 5 exp_kernel 1 (1/20) false);
    [ lia | simpl; lia | simpl; lia ].
Defined.

Lemma length_full_matrix (N : nat) kernel (lamb R r : R) si :
  length (full_matrix N kernel lamb R r si) = (N ^ 2)%nat.
Proof. unfold full_matrix, Py.range. rewrite length_map, length_seq. reflexivity. Qed.

Lemma full_matrix_entry (N : nat) kernel (lamb R r : R) si (i j : nat) :
  (i < N ^ 2)%nat -> (j < N ^ 2)%nat ->
  rentry (full_matrix N kernel lamb R r si) i j
  = lamb * matrix_entry i j N kernel R r si + (if (i =? j)%nat then 1 else 0).
Proof.
  intros Hi Hj. unfold rentry, full_matrix, Py.range.
  rewrite (nth_map_seq _ 0 (N ^ 2) i []) by assumption.
  rewrite (nth_map_seq _ 0 (N ^ 2) j 0) by assumption.
  simpl. destruct (i =? j)%nat; ring.
Qed.

Lemma length_get_filter (N : nat) kernel (lamb R r : R) si :
  (1 <= N)%nat -> length (get_filter N kernel lamb R r si) = (N ^ 2)%nat.
Proof.
  intros HN. unfold get_filter, Py.range2.
  rewrite length_app, length_map, length_seq. simpl length.
  assert (1 <= N ^ 2)%nat by (rewrite pow2_mul; nia). lia.
Qed.

Lemma get_filter_entry (N : nat) kernel (lamb R r : R) si (j : nat) :
  (j < N ^ 2)%nat ->
  nth j (get_filter N kernel lamb R r si) 0
  = lamb * matrix_entry 0 j N kernel R r si + (if (j =? 0)%nat then 1 else 0).
Proof.
  intros Hj. unfold get_filter, Py.range2. destruct j as [|j].
  - simpl. ring.
  - change (nth (S j) ([?x] ++ ?l) 0) with (nth j l 0).
    rewrite nth_map_seq by lia. simpl. ring.
Qed.

Lemma get_filter_first_row (N : nat) kernel (lamb R r : R) si :
  (1 <= N)%nat ->
  get_filter N kernel lamb R r si = nth 0 (full_matrix N kernel lamb R r si) [].
Proof.
  intros HN. unfold full_matrix, Py.range.
  assert (H1 : (1 <= N ^ 2)%nat) by (rewrite pow2_mul; nia).
  rewrite (nth_map_seq _ 0 (N ^ 2) 0 []) by lia.
  unfold get_filter, Py.range2.
  destruct (N ^ 2)%nat as [|m] eqn:E; [lia|].
  replace (S m - 1)%nat with m by lia.
  simpl seq. simpl map at 2. cbv zeta. simpl app. f_equal.
  rewrite <- seq_shift, !map_map.
  apply map_ext_in. intros j Hj. reflexivity.
Qed.

(** C6: [get_filter] is a vector of length [N^2], the first row of
    [full_matrix]: entry 0 is [lamb * matrix_entry 0 0 + 1] and entry [j],
    for [1 <= j < N^2], is [lamb * matrix_entry 0 j], the [(0, j)] entry of
    [full_matrix]. *)
Theorem get_filter_spec :
  forall (N : nat) (kernel : Kernel) (lamb R r : R) (self_interact : bool),
    (1 <= N)%nat ->
    let flt := get_filter N kernel lamb R r self_interact in
    let M := full_matrix N kernel lamb R r self_interact in
    length flt = (N ^ 2)%nat /\
    flt = nth 0 M [] /\
    nth 0 flt 0 = lamb * matrix_entry 0 0 N kernel R r self_interact + 1 /\
    (forall j, (1 <= j < N ^ 2)%nat ->
       nth j flt 0 = lamb * matrix_entry 0 j N kernel R r self_interact /\
       nth j flt 0 = rentry M 0 j).
Proof.
  intros N kernel lamb R r si HN flt M. subst flt M.
  split; [apply length_get_filter; assumption|].
  split; [apply get_filter_first_row; assumption|].
  split; [reflexivity|].
  intros j [Hj1 Hj2].
  assert (E : nth j (get_filter N kernel lamb R r si) 0
              = lamb * matrix_entry 0 j N kernel R r si).
  { rewrite get_filter_entry by assumption.
    destruct j; [lia | simpl; ring]. }
  split; [exact E|].
  rewrite E, full_matrix_entry by lia.
  destruct j; [lia | simpl; ring].
Qed.

Lemma get_filter_spec_witness :
  length (get_filter 4 square_distance_kernel (-1) 1 (1/20) true) = (4 ^ 2)%nat.
Proof.
  apply (get_filter_spec 4 square_distance_kernel (-1) 1 (1/20) true). lia.
Defined.

(** ** Discretised forcing and reference vectors *)

Lemma nth_grid (F : nat -> nat -> R) (N i : nat) :
  (i < N * N)%nat ->
  nth i (flat_map (fun a => map (fun b => F a b) (Py.range N)) (Py.range N)) 0
  = F (i / N)%nat (i mod N)%nat.
Proof.
  intros Hi. unfold Py.range.
  assert (HN : (1 <= N)%nat) by (destruct N; simpl in Hi; lia).
  rewrite (nth_flat_map_uniform _ _ N 0 0%nat).
  - rewrite seq_nth by (apply div_lt_sq; assumption).
    rewrite nth_map_seq by (apply mod_lt_pos; assumption). reflexivity.
  - intros x _. rewrite length_map, length_seq. reflexivity.
  - rewrite length_seq. assumption.
Qed.

(** C10: the discretised vectors use the flattened index
    [i = theta_idx * N + phi_idx], the convention by which [matrix_entry]
    decodes its indices: entry [i] samples the function at theta index
    [i / N] and phi index [i mod N]. *)
Theorem discretized_index_convention :
  forall (N i : nat) (lamb r : R),
    (1 <= N)%nat -> (i < N ^ 2)%nat ->
    nth i (discretized_f N) 0
    = f (INR (i / N) * (2 * PI / INR N)) (INR (i mod N) * (2 * PI / INR N)) /\
    nth i (discretized_g lamb r N) 0
    = g (INR (i / N) * (2 * PI / INR N)) (INR (i mod N) * (2 * PI / INR N)) lamb r /\
    length (discretized_f N) = (N ^ 2)%nat /\
    length (discretized_g lamb r N) = (N ^ 2)%nat.
Proof.
  intros N i lamb r HN Hi. rewrite pow2_mul in *.
  assert (E : forall a : nat, INR a * 2 * PI / INR N = INR a * (2 * PI / INR N))
    by (intros a; unfold Rdiv; ring).
  unfold discretized_f, discretized_g.
  rewrite (nth_grid (fun a b => f (INR a * 2 * PI / INR N) (INR b * 2 * PI / INR N)))
    by assumption.
  rewrite (nth_grid (fun a b => g (INR a * 2 * PI / INR N) (INR b * 2 * PI / INR N) lamb r))
    by assumption.
  rewrite !E.
  repeat split; unfold Py.range;
    rewrite (length_flat_map_uniform _ _ N), length_seq;
    try reflexivity; intros x _; rewrite length_map, length_seq; reflexivity.
Qed.

Lemma discretized_index_convention_witness :
  nth 6 (discretized_f 4) 0
  = f (INR (6 / 4) * (2 * PI / INR 4)) (INR (6 mod 4) * (2 * PI / INR 4)).
Proof.
  apply (discretized_index_convention 4 6 (-1) (1/20)); [lia | simpl; lia].
Defined.

(** ** Driver constants *)

(** C9: the grid sizes the driver iterates and the x-axis list given to
    the plot are two lists of length 8 that differ; they agree exactly at
    indices 0 and 7. *)
Theorem plot_list_mismatch :
  driver_N_list = [4; 6; 8; 10; 12; 14; 16; 32]%Z /\
  plot_x_list = [4; 8; 12; 16; 20; 24; 28; 32]%Z /\
  driver_N_list <> plot_x_list /\
  length driver_N_list = 8%nat /\ length plot_x_list = 8%nat /\
  (forall k : nat,
     ((k < 8)%nat /\ nth k driver_N_list 0%Z = nth k plot_x_list 0%Z)
     <-> (k = 0%nat \/ k = 7%nat)).
Proof.
  split; [reflexivity|]. split; [reflexivity|].
  split; [discriminate|]. split; [reflexivity|]. split; [reflexivity|].
  intros k. split.
  - intros [Hk E].
    do 8 (destruct k as [|k]; [simpl in E; first [now left | now right | discriminate]|]).
    lia.
  - intros [-> | ->]; (split; [lia | reflexivity]).
Qed.

(** ** Matrices given by their entries *)

Section Tabulate.
Context {T : Type}.

Lemma length_tabulate (n m : nat) (F : nat -> nat -> T) : length (tabulate n m F) = n.
Proof. unfold tabulate. rewrite length_map, length_seq. reflexivity. Qed.

Lemma nth_tabulate (n m : nat) (F : nat -> nat -> T) (i : nat) :
  (i < n)%nat -> nth i (tabulate n m F) [] = map (fun j => F i j) (seq 0 m).
Proof. intros Hi. unfold tabulate. rewrite nth_map_seq by assumption. reflexivity. Qed.

Lemma row_length_tabulate (n m : nat) (F : nat -> nat -> T) (row : list T) :
  In row (tabulate n m F) -> length row = m.
Proof.
  unfold tabulate. intros H. apply in_map_iff in H. destruct H as [i [<- _]].
  rewrite length_map, length_seq. reflexivity.
Qed.

Lemma entry_tabulate (n m : nat) (F : nat -> nat -> T) (i j : nat) (d : T) :
  (i < n)%nat -> (j < m)%nat -> nth j (nth i (tabulate n m F) []) d = F i j.
Proof.
  intros Hi Hj. rewrite nth_tabulate by assumption.
  rewrite nth_map_seq by assumption. reflexivity.
Qed.

Lemma tabulate_ext (n m : nat) (F G : nat -> nat -> T) :
  (forall i j, (i < n)%nat -> (j < m)%nat -> F i j = G i j) ->
  tabulate n m F = tabulate n m G.
Proof.
  intros H. unfold tabulate. apply map_ext_in. intros i Hi. apply in_seq in Hi.
  apply map_ext_in. intros j Hj. apply in_seq in Hj. apply H; lia.
Qed.

(** Two nested comprehensions over a grid, flattened, enumerate the
    grid in the order [k = a * p + b]. *)
Lemma grid_as_map (F : nat -> nat -> T) (m p : nat) :
  flat_map (fun a => map (fun b => F a b) (seq 0 p)) (seq 0 m)
  = map (fun k => F (k / p)%nat (k mod p)%nat) (seq 0 (m * p)).
Proof.
  destruct (Nat.eq_dec p 0) as [->|Hp].
  - rewrite Nat.mul_0_r. simpl. induction (seq 0 m); simpl; auto.
  - destruct (Nat.eq_dec m 0) as [->|Hm]; [reflexivity|].
    assert (L : length (flat_map (fun a => map (fun b => F a b) (seq 0 p)) (seq 0 m))
                = (m * p)%nat).
    { rewrite (length_flat_map_uniform _ _ p), length_seq; [reflexivity|].
      intros x _. rewrite length_map, length_seq. reflexivity. }
    apply (nth_ext _ _ (F 0%nat 0%nat) (F 0%nat 0%nat)).
    + rewrite L, length_map, length_seq. reflexivity.
    + intros k Hk. rewrite L in Hk.
      rewrite (nth_flat_map_uniform _ _ p _ 0%nat).
      * rewrite seq_nth by (apply Nat.Div0.div_lt_upper_bound; lia).
        rewrite !nth_map_seq by (try apply Nat.mod_upper_bound; lia).
        reflexivity.
      * intros x _. rewrite length_map, length_seq. reflexivity.
      * rewrite length_seq. assumption.
Qed.

Lemma flat_map_map {U V : Type} (h : U -> V) (k : V -> list T) (l : list U) :
  flat_map k (map h l) = flat_map (fun x => k (h x)) l.
Proof. induction l as [|a l IH]; simpl; [reflexivity | rewrite IH; reflexivity]. Qed.
End Tabulate.

(** ** The cyclic representations *)

Lemma unit_row_as_map (N s : nat) :
  unit_row N s = map (fun c => if (c =? s)%nat then 1%Z else 0%Z) (seq 0 N).
Proof. reflexivity. Qed.

Lemma getitem_rows (N i j : nat) :
  (i < N)%nat -> (j < N)%nat ->
  Py.getitem (map (unit_row N) (Py.range_down N)) (Z.of_nat i - Z.of_nat j)
  = Some (unit_row N ((j + N - S i) mod N)).
Proof.
  intros Hi Hj. unfold Py.getitem, Py.range_down.
  rewrite length_map, length_rev, length_seq.
  assert (R : forall m, (m < N)%nat ->
            nth_error (map (unit_row N) (rev (seq 0 N))) m
            = Some (unit_row N (N - S m))).
  { intros m Hm. rewrite nth_error_map, nth_error_rev, length_seq.
    destruct (Nat.ltb_spec m N) as [_|]; [|lia].
    rewrite (nth_error_nth' _ 0%nat) by (rewrite length_seq; lia).
    rewrite seq_nth by lia. reflexivity. }
  destruct (Z.ltb_spec (Z.of_nat i - Z.of_nat j) 0) as [Hneg|Hpos].
  - destruct (Z.ltb_spec (Z.of_nat N + (Z.of_nat i - Z.of_nat j)) 0); [lia|].
    replace (Z.to_nat (Z.of_nat N + (Z.of_nat i - Z.of_nat j))) with (N + i - j)%nat by lia.
    rewrite R by lia. do 2 f_equal.
    replace (j + N - S i)%nat with ((j - S i) + 1 * N)%nat by lia.
    rewrite Nat.Div0.mod_add, Nat.mod_small by lia. lia.
  - replace (Z.to_nat (Z.of_nat i - Z.of_nat j)) with (i - j)%nat by lia.
    rewrite R by lia. do 2 f_equal.
    rewrite Nat.mod_small by lia. lia.
Qed.

Lemma cyc_perm_full_turn (N : nat) : cyc_perm N N = cyc_perm N 0.
Proof.
  unfold cyc_perm. apply tabulate_ext. intros j c Hj Hc.
  replace (j + N - N)%nat with j by lia.
  replace (j + N - 0)%nat with (j + 1 * N)%nat by lia.
  rewrite Nat.Div0.mod_add. reflexivity.
Qed.

Lemma get_cyclic_reps_eq (N : nat) :
  (1 <= N)%nat -> get_cyclic_reps N = Some (map (cyc_perm N) (seq 0 N)).
Proof.
  intros HN. unfold get_cyclic_reps.
  rewrite (mapM_total _ (fun i => cyc_perm N (S i))).
  - destruct N as [|n]; [lia|].
    unfold Py.range, Py.pop_last.
    rewrite seq_S at 1. rewrite map_app, rev_app_distr.
    simpl rev at 1. simpl app at 1. cbv iota beta.
    rewrite rev_involutive. simpl Nat.add.
    rewrite cyc_perm_full_turn. simpl seq. simpl map at 2. simpl app.
    rewrite <- seq_shift, map_map. reflexivity.
  - intros i Hi. apply in_seq in Hi.
    rewrite (mapM_total _ (fun j => unit_row N ((j + N - S i) mod N))).
    + reflexivity.
    + intros j Hj. apply in_seq in Hj. apply getitem_rows; lia.
Qed.

(** The source traced by hand at small sizes. *)

Example get_cyclic_reps_3 :
  get_cyclic_reps 3
  = Some [ [[1; 0; 0]; [0; 1; 0]; [0; 0; 1]];
           [[0; 0; 1]; [1; 0; 0]; [0; 1; 0]];
           [[0; 1; 0]; [0; 0; 1]; [1; 0; 0]] ]%Z.
Proof. reflexivity. Qed.

Example get_cyclic_reps_0 : get_cyclic_reps 0 = None.
Proof. reflexivity. Qed.

Example getitem_negative : Py.getitem [10; 20; 30]%Z (-1) = Some 30%Z.
Proof. reflexivity. Qed.

Example getitem_out_of_range : Py.getitem [10; 20; 30]%Z (-4) = None.
Proof. reflexivity. Qed.

Example sorted_is_stable :
  Py.sorted fst [(2, 0); (1, 1); (2, 2); (1, 3)]%nat
  = [(1, 1); (1, 3); (2, 0); (2, 2)]%nat.
Proof. reflexivity. Qed.

Example argmax_first_maximum : argmax [0; 3; 1; 3]%Z = 1%nat.
Proof. reflexivity. Qed.

Example kron_2 :
  kron [[0; 1]; [1; 0]]%Z [[1; 0]; [0; 1]]%Z
  = [[0; 0; 1; 0]; [0; 0; 0; 1]; [1; 0; 0; 0]; [0; 1; 0; 0]]%Z.
Proof. reflexivity. Qed.

Example get_cyclic_product_reps_2 :
  get_cyclic_product_reps 2
  = Some [ [[1; 0; 0; 0]; [0; 1; 0; 0]; [0; 0; 1; 0]; [0; 0; 0; 1]];
           [[0; 1; 0; 0]; [1; 0; 0; 0]; [0; 0; 0; 1]; [0; 0; 1; 0]];
           [[0; 0; 1; 0]; [0; 0; 0; 1]; [1; 0; 0; 0]; [0; 1; 0; 0]];
           [[0; 0; 0; 1]; [0; 0; 1; 0]; [0; 1; 0; 0]; [1; 0; 0; 0]] ]%Z.
Proof. reflexivity. Qed.

Lemma cyc_perm_entry (N k j c : nat) :
  (j < N)%nat -> (c < N)%nat ->
  zentry (cyc_perm N k) j c = if (c =? (j + N - k) mod N)%nat then 1%Z else 0%Z.
Proof. intros Hj Hc. unfold zentry, cyc_perm. rewrite entry_tabulate by assumption. reflexivity. Qed.

(** ** Permutation matrices *)

Lemma permutation_of_bijection (n : nat) (sigma tau : nat -> nat) :
  (forall i, (i < n)%nat -> (sigma i < n)%nat) ->
  (forall j, (j < n)%nat -> (tau j < n)%nat) ->
  (forall i, (i < n)%nat -> tau (sigma i) = i) ->
  (forall j, (j < n)%nat -> sigma (tau j) = j) ->
  is_permutation_matrix n
    (tabulate n n (fun i j => if (j =? sigma i)%nat then 1%Z else 0%Z)).
Proof.
  intros Hs Ht Hts Hst.
  assert (E : forall i j, (i < n)%nat -> (j < n)%nat ->
            zentry (tabulate n n (fun i j => if (j =? sigma i)%nat then 1%Z else 0%Z)) i j
            = if (j =? sigma i)%nat then 1%Z else 0%Z).
  { intros i j Hi Hj. unfold zentry. rewrite entry_tabulate by assumption. reflexivity. }
  split; [apply length_tabulate|].
  split; [intros row; apply row_length_tabulate|].
  split; [|split].
  - intros i j Hi Hj. rewrite E by assumption. destruct (j =? sigma i)%nat; auto.
  - intros i Hi. exists (sigma i). split; [auto|]. split.
    + rewrite E by auto. rewrite Nat.eqb_refl. reflexivity.
    + intros j' Hj'. rewrite E by auto.
      destruct (Nat.eqb_spec j' (sigma i)); [auto | discriminate].
  - intros j Hj. exists (tau j). split; [auto|]. split.
    + rewrite E by auto. rewrite Hst by assumption. rewrite Nat.eqb_refl. reflexivity.
    + intros i' Hi'. rewrite E by auto.
      destruct (Nat.eqb_spec j (sigma i')) as [->|]; [|discriminate].
      intros _. symmetry. apply Hts. assumption.
Qed.

(** Arithmetic of shifts modulo [N]. *)

Lemma shift_back_forth (N j k : nat) :
  (j < N)%nat -> (k <= N)%nat -> (((j + N - k) mod N + k) mod N = j)%nat.
Proof.
  intros Hj Hk. rewrite Nat.Div0.add_mod_idemp_l.
  replace (j + N - k + k)%nat with (j + 1 * N)%nat by lia.
  rewrite Nat.Div0.mod_add. apply Nat.mod_small. assumption.
Qed.

Lemma shift_forth_back (N c k : nat) :
  (c < N)%nat -> (k <= N)%nat -> (((c + k) mod N + N - k) mod N = c)%nat.
Proof.
  intros Hc Hk.
  replace ((c + k) mod N + N - k)%nat with ((c + k) mod N + (N - k))%nat by lia.
  rewrite Nat.Div0.add_mod_idemp_l.
  replace (c + k + (N - k))%nat with (c + 1 * N)%nat by lia.
  rewrite Nat.Div0.mod_add. apply Nat.mod_small. assumption.
Qed.

Lemma shift_compose (N j k l : nat) :
  (k < N)%nat -> (l < N)%nat ->
  (((j + N - k) mod N + N - l) mod N = (j + N - (k + l) mod N) mod N)%nat.
Proof.
  intros Hk Hl.
  replace ((j + N - k) mod N + N - l)%nat with ((j + N - k) mod N + (N - l))%nat by lia.
  rewrite Nat.Div0.add_mod_idemp_l.
  destruct (Nat.lt_ge_cases (k + l) N) as [H|H].
  - rewrite (Nat.mod_small (k + l)) by assumption.
    replace (j + N - k + (N - l))%nat with ((j + N - (k + l)) + 1 * N)%nat by lia.
    apply Nat.Div0.mod_add.
  - replace ((k + l) mod N)%nat with (k + l - N)%nat.
    + f_equal. lia.
    + replace (k + l)%nat with ((k + l - N) + 1 * N)%nat at 2 by lia.
      rewrite Nat.Div0.mod_add, Nat.mod_small by lia. reflexivity.
Qed.

Lemma cyc_perm_is_permutation (N k : nat) :
  (k < N)%nat -> is_permutation_matrix N (cyc_perm N k).
Proof.
  intros Hk. unfold cyc_perm.
  apply (permutation_of_bijection N (fun j => (j + N - k) mod N)%nat
                                    (fun c => (c + k) mod N)%nat).
  - intros i _. apply Nat.mod_upper_bound. lia.
  - intros j _. apply Nat.mod_upper_bound. lia.
  - intros i Hi. apply shift_back_forth; lia.
  - intros j Hj. apply shift_forth_back; lia.
Qed.

Lemma cyc_perm_zero_identity (N : nat) : cyc_perm N 0 = identity_matrix N.
Proof.
  unfold cyc_perm, identity_matrix. apply tabulate_ext. intros j c Hj Hc.
  replace (j + N - 0)%nat with (j + 1 * N)%nat by lia.
  rewrite Nat.Div0.mod_add, Nat.mod_small by assumption.
  rewrite Nat.eqb_sym. reflexivity.
Qed.

(** Matrix product against a row with a single 1. *)

Lemma fold_left_Zadd_acc (l : list Z) (x : Z) :
  fold_left Z.add l x = (x + fold_left Z.add l 0)%Z.
Proof.
  revert x. induction l as [|a l IH]; intros x; simpl; [lia|].
  rewrite IH, (IH a). lia.
Qed.

Lemma zdot_cons (x y : Z) (u v : list Z) :
  zdot (x :: u) (y :: v) = (x * y + zdot u v)%Z.
Proof. unfold zdot. simpl. rewrite fold_left_Zadd_acc. reflexivity. Qed.

Lemma zdot_indicator (n a s : nat) (v : list Z) :
  length v = n ->
  zdot (map (fun c => if (c =? s)%nat then 1%Z else 0%Z) (seq a n)) v
  = if ((a <=? s) && (s <? a + n))%nat then nth (s - a) v 0%Z else 0%Z.
Proof.
  revert a v. induction n as [|n IH]; intros a v Hv.
  - simpl. destruct ((a <=? s) && (s <? a + 0))%nat eqn:E; [|reflexivity].
    apply andb_prop in E. destruct E as [E1 E2].
    apply Nat.leb_le in E1. apply Nat.ltb_lt in E2. lia.
  - destruct v as [|y v]; [discriminate|]. simpl in Hv.
    simpl seq. simpl map. rewrite zdot_cons, IH by lia.
    destruct (Nat.eqb_spec a s) as [->|Hne]; case_bounds.
    + replace (s - s)%nat with 0%nat by lia. cbn [nth]. lia.
    + replace (s - a)%nat with (S (s - S a)) by lia. cbn [nth]. lia.
Qed.

Lemma length_hd_tabulate {T : Type} (n m : nat) (F : nat -> nat -> T) :
  (1 <= n)%nat -> length (hd [] (tabulate n m F)) = m.
Proof.
  intros Hn. destruct n; [lia|]. unfold tabulate. simpl.
  rewrite length_map, length_seq. reflexivity.
Qed.

Lemma column_tabulate (n m : nat) (F : nat -> nat -> Z) (c : nat) :
  (c < m)%nat -> column (tabulate n m F) c = map (fun i => F i c) (seq 0 n).
Proof.
  intros Hc. unfold column, tabulate. rewrite map_map.
  apply map_ext. intros i. rewrite nth_map_seq by assumption. reflexivity.
Qed.

Lemma matmul_tabulate_perm (n : nat) (sigma : nat -> nat) (G : nat -> nat -> Z) :
  (1 <= n)%nat ->
  (forall j, (j < n)%nat -> (sigma j < n)%nat) ->
  matmul (tabulate n n (fun j c => if (c =? sigma j)%nat then 1%Z else 0%Z))
         (tabulate n n G)
  = tabulate n n (fun j c => G (sigma j) c).
Proof.
  intros Hn Hs. unfold matmul. rewrite length_hd_tabulate by assumption.
  unfold Py.range. unfold tabulate at 2 3. rewrite map_map.
  apply map_ext_in. intros j Hj. apply in_seq in Hj.
  apply map_ext_in. intros c Hc. apply in_seq in Hc.
  rewrite column_tabulate by lia.
  rewrite zdot_indicator by (rewrite length_map, length_seq; reflexivity).
  specialize (Hs j ltac:(lia)). case_bounds.
  rewrite Nat.sub_0_r, nth_map_seq by assumption. reflexivity.
Qed.

Lemma cyc_perm_matmul (N k l : nat) :
  (k < N)%nat -> (l < N)%nat ->
  matmul (cyc_perm N k) (cyc_perm N l) = cyc_perm N ((k + l) mod N).
Proof.
  intros Hk Hl. unfold cyc_perm.
  rewrite matmul_tabulate_perm
    by (try lia; intros j _; apply Nat.mod_upper_bound; lia).
  apply tabulate_ext. intros j c _ _.
  rewrite shift_compose by assumption. reflexivity.
Qed.

(** C3: for [N >= 1], [get_cyclic_reps N] returns [N] permutation matrices
    of size [N] by [N], the first being the identity, and the matrix
    product of the ones at indices [k] and [l] is the one at index
    [(k + l) mod N]. *)
Theorem get_cyclic_reps_group :
  forall N : nat,
    (1 <= N)%nat ->
    exists G : list ZMatrix,
      get_cyclic_reps N = Some G /\
      length G = N /\
      (forall k, (k < N)%nat -> is_permutation_matrix N (nth k G [])) /\
      nth 0 G [] = identity_matrix N /\
      (forall k l, (k < N)%nat -> (l < N)%nat ->
         matmul (nth k G []) (nth l G []) = nth ((k + l) mod N) G []).
Proof.
  intros N HN. exists (map (cyc_perm N) (seq 0 N)).
  split; [apply get_cyclic_reps_eq; assumption|].
  split; [rewrite length_map, length_seq; reflexivity|].
  split; [|split].
  - intros k Hk. rewrite nth_map_seq by assumption.
    apply cyc_perm_is_permutation. assumption.
  - rewrite nth_map_seq by lia. apply cyc_perm_zero_identity.
  - intros k l Hk Hl.
    rewrite !nth_map_seq by (try apply Nat.mod_upper_bound; lia).
    apply cyc_perm_matmul; assumption.
Qed.

Lemma get_cyclic_reps_group_witness :
  exists G : list ZMatrix,
    get_cyclic_reps 3 = Some G /\
    length G = 3%nat /\
    (forall k, (k < 3)%nat -> is_permutation_matrix 3 (nth k G [])) /\
    nth 0 G [] = identity_matrix 3 /\
    (forall k l, (k < 3)%nat -> (l < 3)%nat ->
       matmul (nth k G []) (nth l G []) = nth ((k + l) mod 3) G []).
Proof. apply (get_cyclic_reps_group 3). lia. Defined.

(** ** The product representations *)

Lemma kron_tabulate (m n p q : nat) (F G : nat -> nat -> Z) :
  kron (tabulate m n F) (tabulate p q G)
  = tabulate (m * p) (n * q)
      (fun i j => (F (i / p)%nat (j / q)%nat * G (i mod p)%nat (j mod q)%nat)%Z).
Proof.
  unfold kron, tabulate. rewrite flat_map_map.
  rewrite <- (grid_as_map
                (fun a b => map (fun j => (F a (j / q)%nat * G b (j mod q)%nat)%Z)
                                (seq 0 (n * q)))).
  apply flat_map_ext. intros a. rewrite map_map.
  apply map_ext. intros b. rewrite flat_map_map.
  rewrite <- (grid_as_map (fun c d => (F a c * G b d)%Z)).
  apply flat_map_ext. intros c. rewrite map_map. reflexivity.
Qed.

Lemma transpose_tabulate (n m : nat) (F : nat -> nat -> Z) :
  (1 <= n)%nat -> transpose (tabulate n m F) = tabulate m n (fun i j => F j i).
Proof.
  intros Hn. unfold transpose. rewrite length_hd_tabulate by assumption.
  unfold Py.range. unfold tabulate at 2.
  apply map_ext_in. intros c Hc. apply in_seq in Hc.
  apply column_tabulate. lia.
Qed.

(** [np.argmax] of a 0/1 vector with a single 1. *)

Lemma argmax_from_bounded (l : list Z) (best : Z) (besti i : nat) :
  (forall x, In x l -> (x <= best)%Z) -> argmax_from best besti i l = besti.
Proof.
  revert i. induction l as [|x l IH]; intros i H; simpl; [reflexivity|].
  destruct (Z.ltb_spec best x) as [Hlt|_].
  - specialize (H x (or_introl eq_refl)). lia.
  - apply IH. intros y Hy. apply H. right. assumption.
Qed.

Lemma indicator_le_1 (p a n : nat) (x : Z) :
  In x (map (fun c => if (c =? p)%nat then 1%Z else 0%Z) (seq a n)) -> (x <= 1)%Z.
Proof.
  intros H. apply in_map_iff in H. destruct H as [c [<- _]].
  destruct (c =? p)%nat; lia.
Qed.

Lemma argmax_from_indicator (n i p besti : nat) :
  (i <= p < i + n)%nat ->
  argmax_from 0 besti i (map (fun c => if (c =? p)%nat then 1%Z else 0%Z) (seq i n)) = p.
Proof.
  revert i. induction n as [|n IH]; intros i Hp; [lia|].
  simpl. destruct (Nat.eqb_spec i p) as [->|Hne]; simpl.
  - apply argmax_from_bounded. apply indicator_le_1.
  - apply IH. lia.
Qed.

Lemma argmax_indicator (n p : nat) :
  (p < n)%nat ->
  argmax (map (fun c => if (c =? p)%nat then 1%Z else 0%Z) (seq 0 n)) = p.
Proof.
  intros Hp. destruct n as [|n]; [lia|]. simpl.
  destruct p as [|p]; simpl.
  - apply argmax_from_bounded. apply indicator_le_1.
  - apply argmax_from_indicator. lia.
Qed.

(** A list already in increasing key order is left as it is by the sort. *)
Lemma sorted_enumeration {T : Type} (key : T -> nat) (F : nat -> T) (a n : nat) :
  (forall k, (a <= k < a + n)%nat -> key (F k) = k) ->
  Py.sorted key (map F (seq a n)) = map F (seq a n).
Proof.
  revert a. induction n as [|n IH]; intros a H; [reflexivity|].
  change (Py.insert_by key (F a) (Py.sorted key (map F (seq (S a) n)))
          = F a :: map F (seq (S a) n)).
  rewrite IH by (intros; apply H; lia).
  destruct n as [|n]; [reflexivity|].
  cbn [seq map Py.insert_by]. rewrite (H a), (H (S a)) by lia.
  destruct (Nat.leb_spec a (S a)); [reflexivity | lia].
Qed.

(** Decoding a flattened index. *)

Lemma div_mul_add (N x y : nat) : (y < N)%nat -> ((x * N + y) / N = x)%nat.
Proof.
  intros Hy. rewrite Nat.add_comm, Nat.div_add by lia.
  rewrite Nat.div_small by assumption. reflexivity.
Qed.

Lemma mod_mul_add (N x y : nat) : (y < N)%nat -> ((x * N + y) mod N = y)%nat.
Proof.
  intros Hy. rewrite Nat.add_comm, Nat.Div0.mod_add.
  apply Nat.mod_small. assumption.
Qed.

Lemma flat_index_lt (N x y : nat) : (x < N)%nat -> (y < N)%nat -> (x * N + y < N * N)%nat.
Proof. intros Hx Hy. nia. Qed.

Lemma flat_index_decode (N x y j : nat) :
  (y < N)%nat -> (j / N = x /\ j mod N = y)%nat <-> j = (x * N + y)%nat.
Proof.
  intros Hy. split.
  - intros [<- <-]. rewrite (Nat.div_mod_eq j N) at 1. lia.
  - intros ->. split; [apply div_mul_add | apply mod_mul_add]; assumption.
Qed.

Lemma shift_eq_iff (N x y a : nat) :
  (x < N)%nat -> (y < N)%nat -> (a <= N)%nat ->
  (x = (y + N - a) mod N <-> y = (x + a) mod N)%nat.
Proof.
  intros Hx Hy Ha. split; intros ->.
  - symmetry. apply shift_back_forth; assumption.
  - symmetry. apply shift_forth_back; assumption.
Qed.

Lemma kron_cyc_key (N a b : nat) :
  (a < N)%nat -> (b < N)%nat ->
  argmax (column (kron (cyc_perm N a) (cyc_perm N b)) 0) = (a * N + b)%nat.
Proof.
  intros Ha Hb. unfold cyc_perm. rewrite kron_tabulate.
  rewrite column_tabulate by nia.
  rewrite <- (argmax_indicator (N * N) (a * N + b)) by (apply flat_index_lt; assumption).
  f_equal. apply map_ext_in. intros i Hi. apply in_seq in Hi.
  assert (Hd : (i / N < N)%nat) by (apply div_lt_sq; lia).
  assert (Hm : (i mod N < N)%nat) by (apply Nat.mod_upper_bound; lia).
  rewrite Nat.Div0.div_0_l, Nat.Div0.mod_0_l.
  pose proof (shift_eq_iff N 0 (i / N) a ltac:(lia) Hd ltac:(lia)) as E1.
  pose proof (shift_eq_iff N 0 (i mod N) b ltac:(lia) Hm ltac:(lia)) as E2.
  rewrite Nat.add_0_l in E1, E2.
  rewrite (Nat.mod_small a N) in E1 by assumption.
  rewrite (Nat.mod_small b N) in E2 by assumption.
  pose proof (flat_index_decode N a b i Hb) as E3.
  destruct (Nat.eqb_spec 0 ((i / N + N - a) mod N));
    destruct (Nat.eqb_spec 0 ((i mod N + N - b) mod N));
    destruct (Nat.eqb_spec i (a * N + b)); try reflexivity; exfalso; tauto.
Qed.

Lemma get_cyclic_product_reps_eq (N : nat) :
  (1 <= N)%nat ->
  get_cyclic_product_reps N = Some (map (prod_perm N) (seq 0 (N * N))).
Proof.
  intros HN. unfold get_cyclic_product_reps.
  rewrite get_cyclic_reps_eq by assumption.
  rewrite flat_map_map.
  assert (E : flat_map (fun a => map (fun mat2 => kron (cyc_perm N a) mat2)
                                     (map (cyc_perm N) (seq 0 N))) (seq 0 N)
              = map (fun k => kron (cyc_perm N (k / N)) (cyc_perm N (k mod N)))
                    (seq 0 (N * N))).
  { rewrite <- (grid_as_map (fun a b => kron (cyc_perm N a) (cyc_perm N b))).
    apply flat_map_ext. intros a. rewrite map_map. reflexivity. }
  rewrite E. f_equal.
  rewrite sorted_enumeration.
  - rewrite map_map. apply map_ext_in. intros k Hk. apply in_seq in Hk.
    unfold cyc_perm. rewrite kron_tabulate.
    rewrite transpose_tabulate by nia.
    unfold prod_perm. apply tabulate_ext. intros i j _ _. reflexivity.
  - intros k Hk.
    rewrite kron_cyc_key by (try apply div_lt_sq; try apply Nat.mod_upper_bound; lia).
    symmetry. rewrite Nat.mul_comm. apply Nat.div_mod_eq.
Qed.

Lemma indicator_mul (b1 b2 : bool) :
  ((if b1 then 1 else 0) * (if b2 then 1 else 0))%Z = if b1 && b2 then 1%Z else 0%Z.
Proof. destruct b1, b2; reflexivity. Qed.

Lemma prod_entry_sigma (N k i j : nat) :
  (i < N * N)%nat -> (j < N * N)%nat -> (k < N * N)%nat ->
  prod_entry N k i j = if (j =? prod_sigma N k i)%nat then 1%Z else 0%Z.
Proof.
  intros Hi Hj Hk. unfold prod_entry, prod_sigma. rewrite indicator_mul.
  assert (HN : (1 <= N)%nat) by (destruct N; simpl in Hi; lia).
  pose proof (div_lt_sq N i Hi). pose proof (div_lt_sq N j Hj).
  pose proof (div_lt_sq N k Hk).
  pose proof (mod_lt_pos N i HN). pose proof (mod_lt_pos N j HN).
  pose proof (mod_lt_pos N k HN).
  pose proof (shift_eq_iff N (i / N) (j / N) (k / N)) as E1.
  pose proof (shift_eq_iff N (i mod N) (j mod N) (k mod N)) as E2.
  pose proof (flat_index_decode N ((i / N + k / N) mod N) ((i mod N + k mod N) mod N) j
                (mod_lt_pos N _ HN)) as E3.
  destruct (Nat.eqb_spec (i / N) ((j / N + N - k / N) mod N));
    destruct (Nat.eqb_spec (i mod N) ((j mod N + N - k mod N) mod N));
    destruct (Nat.eqb_spec j (((i / N + k / N) mod N) * N + (i mod N + k mod N) mod N));
    try reflexivity; exfalso; intuition lia.
Qed.

Lemma shift_swap_iff (N x y a : nat) :
  (x < N)%nat -> (y < N)%nat -> (a < N)%nat ->
  (x = (y + N - a) mod N <-> a = (y + N - x) mod N)%nat.
Proof.
  intros Hx Hy Ha.
  rewrite (shift_eq_iff N x y a) by lia.
  rewrite (shift_eq_iff N a y x) by lia.
  rewrite (Nat.add_comm a x). reflexivity.
Qed.

Lemma prod_entry_kappa (N k i j : nat) :
  (i < N * N)%nat -> (j < N * N)%nat -> (k < N * N)%nat ->
  prod_entry N k i j = if (k =? kappa N i j)%nat then 1%Z else 0%Z.
Proof.
  intros Hi Hj Hk. unfold prod_entry, kappa. rewrite indicator_mul.
  assert (HN : (1 <= N)%nat) by (destruct N; simpl in Hi; lia).
  pose proof (div_lt_sq N i Hi). pose proof (div_lt_sq N j Hj).
  pose proof (div_lt_sq N k Hk).
  pose proof (mod_lt_pos N i HN). pose proof (mod_lt_pos N j HN).
  pose proof (mod_lt_pos N k HN).
  pose proof (shift_swap_iff N (i / N) (j / N) (k / N)) as E1.
  pose proof (shift_swap_iff N (i mod N) (j mod N) (k mod N)) as E2.
  pose proof (flat_index_decode N ((j / N + N - i / N) mod N)
                ((j mod N + N - i mod N) mod N) k (mod_lt_pos N _ HN)) as E3.
  destruct (Nat.eqb_spec (i / N) ((j / N + N - k / N) mod N));
    destruct (Nat.eqb_spec (i mod N) ((j mod N + N - k mod N) mod N));
    destruct (Nat.eqb_spec k (((j / N + N - i / N) mod N) * N
                              + (j mod N + N - i mod N) mod N));
    try reflexivity; exfalso; intuition lia.
Qed.

Lemma kappa_lt (N i j : nat) : (1 <= N)%nat -> (kappa N i j < N * N)%nat.
Proof.
  intros HN. unfold kappa. apply flat_index_lt; apply Nat.mod_upper_bound; lia.
Qed.

Lemma prod_sigma_lt (N k i : nat) : (1 <= N)%nat -> (prod_sigma N k i < N * N)%nat.
Proof.
  intros HN. unfold prod_sigma. apply flat_index_lt; apply Nat.mod_upper_bound; lia.
Qed.

Lemma prod_tau_lt (N k j : nat) : (1 <= N)%nat -> (prod_tau N k j < N * N)%nat.
Proof.
  intros HN. unfold prod_tau. apply flat_index_lt; apply Nat.mod_upper_bound; lia.
Qed.

Lemma prod_tau_sigma (N k i : nat) :
  (i < N * N)%nat -> (k < N * N)%nat -> prod_tau N k (prod_sigma N k i) = i.
Proof.
  intros Hi Hk.
  assert (HN : (1 <= N)%nat) by (destruct N; simpl in Hi; lia).
  unfold prod_tau, prod_sigma.
  rewrite div_mul_add, mod_mul_add by (apply Nat.mod_upper_bound; lia).
  pose proof (div_lt_sq N i Hi). pose proof (div_lt_sq N k Hk).
  pose proof (mod_lt_pos N i HN). pose proof (mod_lt_pos N k HN).
  rewrite !shift_forth_back by lia.
  symmetry. rewrite Nat.mul_comm. apply Nat.div_mod_eq.
Qed.

Lemma prod_sigma_tau (N k j : nat) :
  (j < N * N)%nat -> (k < N * N)%nat -> prod_sigma N k (prod_tau N k j) = j.
Proof.
  intros Hj Hk.
  assert (HN : (1 <= N)%nat) by (destruct N; simpl in Hj; lia).
  unfold prod_tau, prod_sigma.
  rewrite div_mul_add, mod_mul_add by (apply Nat.mod_upper_bound; lia).
  pose proof (div_lt_sq N j Hj). pose proof (div_lt_sq N k Hk).
  pose proof (mod_lt_pos N j HN). pose proof (mod_lt_pos N k HN).
  rewrite !shift_back_forth by lia.
  symmetry. rewrite Nat.mul_comm. apply Nat.div_mod_eq.
Qed.

Lemma prod_perm_is_permutation (N k : nat) :
  (k < N * N)%nat -> is_permutation_matrix (N * N) (prod_perm N k).
Proof.
  intros Hk.
  assert (HN : (1 <= N)%nat) by (destruct N; simpl in Hk; lia).
  unfold prod_perm.
  rewrite (tabulate_ext _ _ _ (fun i j => if (j =? prod_sigma N k i)%nat then 1%Z else 0%Z))
    by (intros; apply prod_entry_sigma; assumption).
  apply (permutation_of_bijection (N * N) (prod_sigma N k) (prod_tau N k)).
  - intros. apply prod_sigma_lt. assumption.
  - intros. apply prod_tau_lt. assumption.
  - intros. apply prod_tau_sigma; assumption.
  - intros. apply prod_sigma_tau; assumption.
Qed.

Lemma prod_sigma_zero (N i : nat) : (1 <= N)%nat -> (i < N * N)%nat -> prod_sigma N 0 i = i.
Proof.
  intros HN Hi. unfold prod_sigma.
  rewrite Nat.Div0.div_0_l, Nat.Div0.mod_0_l, !Nat.add_0_r.
  rewrite Nat.Div0.mod_mod, (Nat.mod_small (i / N)) by (apply div_lt_sq; assumption).
  symmetry. rewrite Nat.mul_comm. apply Nat.div_mod_eq.
Qed.

Lemma prod_perm_zero_identity (N : nat) :
  (1 <= N)%nat -> prod_perm N 0 = identity_matrix (N * N).
Proof.
  intros HN. unfold prod_perm, identity_matrix. apply tabulate_ext.
  intros i j Hi Hj. rewrite prod_entry_sigma by nia.
  rewrite prod_sigma_zero by assumption. rewrite Nat.eqb_sym. reflexivity.
Qed.

(** C4: for [N >= 1], [get_cyclic_product_reps N] returns [N^2]
    permutation matrices of size [N^2] by [N^2], the first of which is
    the identity. *)
Theorem get_cyclic_product_reps_spec :
  forall N : nat,
    (1 <= N)%nat ->
    exists reps : list ZMatrix,
      get_cyclic_product_reps N = Some reps /\
      length reps = (N ^ 2)%nat /\
      (forall k, (k < N ^ 2)%nat -> is_permutation_matrix (N ^ 2) (nth k reps [])) /\
      nth 0 reps [] = identity_matrix (N ^ 2).
Proof.
  intros N HN. rewrite pow2_mul. exists (map (prod_perm N) (seq 0 (N * N))).
  split; [apply get_cyclic_product_reps_eq; assumption|].
  split; [rewrite length_map, length_seq; reflexivity|].
  split.
  - intros k Hk. rewrite nth_map_seq by assumption.
    apply prod_perm_is_permutation. assumption.
  - rewrite nth_map_seq by nia. apply prod_perm_zero_identity. assumption.
Qed.

Lemma get_cyclic_product_reps_spec_witness :
  exists reps : list ZMatrix,
    get_cyclic_product_reps 2 = Some reps /\
    length reps = (2 ^ 2)%nat /\
    (forall k, (k < 2 ^ 2)%nat -> is_permutation_matrix (2 ^ 2) (nth k reps [])) /\
    nth 0 reps [] = identity_matrix (2 ^ 2).
Proof. apply (get_cyclic_product_reps_spec 2). lia. Defined.

(** ** The reconstruction loop *)

Lemma combine_map_same {T U V : Type} (h1 : T -> U) (h2 : T -> V) (l : list T) :
  combine (map h1 l) (map h2 l) = map (fun x => (h1 x, h2 x)) l.
Proof. induction l as [|a l IH]; simpl; [reflexivity | rewrite IH; reflexivity]. Qed.

Lemma madd_tabulate (n m : nat) (F G : nat -> nat -> R) :
  madd (tabulate n m F) (tabulate n m G) = tabulate n m (fun i j => F i j + G i j).
Proof.
  unfold madd, tabulate. rewrite combine_map_same, map_map.
  apply map_ext. intros i. cbn [fst snd].
  rewrite combine_map_same, map_map. reflexivity.
Qed.

Lemma mscale_tabulate (n m : nat) (c : R) (E : nat -> nat -> Z) :
  mscale c (tabulate n m E) = tabulate n m (fun i j => c * IZR (E i j)).
Proof.
  unfold mscale, tabulate. rewrite map_map.
  apply map_ext. intros i. rewrite map_map. reflexivity.
Qed.

Lemma zeros_tabulate (n m : nat) : zeros n m = tabulate n m (fun _ _ => 0).
Proof.
  unfold zeros, tabulate.
  assert (H : forall (T : Type) (x : T) (a k : nat), repeat x k = map (fun _ => x) (seq a k)).
  { intros T x a k. revert a. induction k as [|k IH]; intros a; simpl;
      [reflexivity | rewrite <- IH; reflexivity]. }
  rewrite (H _ _ 0%nat n). apply map_ext. intros _. apply H.
Qed.

Lemma accumulate_tabulate (n m : nat) (c : nat -> R) (reps : list ZMatrix)
      (E : nat -> nat -> nat -> Z) (l : list nat) :
  (forall k, In k l -> nth k reps [] = tabulate n m (E k)) ->
  forall F0 : nat -> nat -> R,
    fold_left (fun approx i => madd approx (mscale (c i) (nth i reps []))) l
              (tabulate n m F0)
    = tabulate n m (fun i j => F0 i j + rsum (fun k => c k * IZR (E k i j)) l).
Proof.
  induction l as [|k l IH]; intros H F0.
  - simpl. apply tabulate_ext. intros. ring.
  - cbn [fold_left]. rewrite H by (left; reflexivity).
    rewrite mscale_tabulate, madd_tabulate.
    rewrite IH by (intros; apply H; right; assumption).
    apply tabulate_ext. intros. simpl. ring.
Qed.

Lemma rsum_ext (F G : nat -> R) (l : list nat) :
  (forall k, In k l -> F k = G k) -> rsum F l = rsum G l.
Proof.
  induction l as [|k l IH]; intros H; simpl; [reflexivity|].
  rewrite (H k) by (left; reflexivity).
  rewrite IH by (intros; apply H; right; assumption). reflexivity.
Qed.

Lemma rsum_indicator (c : nat -> R) (s a n : nat) :
  rsum (fun k => c k * IZR (if (k =? s)%nat then 1 else 0)) (seq a n)
  = if ((a <=? s) && (s <? a + n))%nat then c s else 0.
Proof.
  revert a. induction n as [|n IH]; intros a.
  - simpl. case_bounds; reflexivity.
  - cbn [seq rsum fold_right]. fold (rsum (fun k => c k * IZR (if (k =? s)%nat then 1 else 0))
                                          (seq (S a) n)).
    rewrite IH. destruct (Nat.eqb_spec a s) as [->|Hne]; case_bounds; ring.
Qed.

Lemma driver_approx_eq (N : nat) (kernel : Kernel) (lamb R r : R) (si : bool) :
  (1 <= N)%nat ->
  driver_approx N kernel lamb R r si
  = Some (tabulate (N * N) (N * N)
            (fun i j => nth (kappa N i j) (get_filter N kernel lamb R r si) 0)).
Proof.
  intros HN. unfold driver_approx.
  rewrite get_cyclic_product_reps_eq by assumption. f_equal.
  rewrite pow2_mul, zeros_tabulate. unfold Py.range.
  rewrite (accumulate_tabulate (N * N) (N * N) _ _ (prod_entry N)).
  - apply tabulate_ext. intros i j Hi Hj.
    transitivity (rsum (fun k => nth k (get_filter N kernel lamb R r si) 0
                                 * IZR (if (k =? kappa N i j)%nat then 1 else 0))
                       (seq 0 (N * N))).
    + rewrite Rplus_0_l. apply rsum_ext. intros k Hk. apply in_seq in Hk.
      rewrite prod_entry_kappa by lia. reflexivity.
    + rewrite rsum_indicator. pose proof (kappa_lt N i j HN). case_bounds; reflexivity.
  - intros k Hk. apply in_seq in Hk. rewrite nth_map_seq by lia. reflexivity.
Qed.

(** ** Symmetry of the assembled matrix *)

Lemma builtin_kernels_distance (K : Kernel) :
  In K [log_kernel; exp_kernel; square_distance_kernel] -> distance_kernel K.
Proof.
  intros [<- | [<- | [<- | []]]].
  - exists ln. reflexivity.
  - exists (fun d => exp (- d)). reflexivity.
  - exists (fun d => d ^ 2). reflexivity.
Qed.

Lemma INR_mod_angle (N m : nat) :
  (1 <= N)%nat ->
  INR (m mod N) * (2 * PI / INR N) + 2 * INR (m / N) * PI = INR m * (2 * PI / INR N).
Proof.
  intros HN.
  assert (HN0 : INR N <> 0) by (apply not_0_INR; lia).
  rewrite (Nat.div_mod_eq m N) at 3.
  rewrite plus_INR, mult_INR. field. assumption.
Qed.

Lemma cos_grid_mod (N m : nat) :
  (1 <= N)%nat ->
  cos (INR (m mod N) * (2 * PI / INR N)) = cos (INR m * (2 * PI / INR N)).
Proof.
  intros HN. rewrite <- (INR_mod_angle N m HN). symmetry. apply cos_period.
Qed.

Lemma sin_grid_mod (N m : nat) :
  (1 <= N)%nat ->
  sin (INR (m mod N) * (2 * PI / INR N)) = sin (INR m * (2 * PI / INR N)).
Proof.
  intros HN. rewrite <- (INR_mod_angle N m HN). symmetry. apply sin_period.
Qed.

(** The distance between two torus points is unchanged when both are
    rotated by the same angle about the axis of the torus. *)
Lemma torus_distance_rotation (theta1 phi1 theta2 phi2 delta R r : R) :
  norm (psub (torus_point theta2 (phi2 + delta) R r)
             (torus_point theta1 (phi1 + delta) R r))
  = norm (psub (torus_point theta2 phi2 R r) (torus_point theta1 phi1 R r)).
Proof.
  unfold norm, psub, torus_point. cbn [px py pz]. f_equal.
  rewrite !cos_plus, !sin_plus.
  pose proof (sin2_cos2 delta) as H. unfold Rsqr in H.
  set (X := (R + r * cos theta2) * cos phi2 - (R + r * cos theta1) * cos phi1).
  set (Y := (R + r * cos theta2) * sin phi2 - (R + r * cos theta1) * sin phi1).
  set (Zd := r * sin theta2 - r * sin theta1).
  transitivity ((X * X + Y * Y) * (sin delta * sin delta + cos delta * cos delta) + Zd * Zd).
  - subst X Y Zd. ring.
  - rewrite H. subst X Y Zd. ring.
Qed.

Lemma torus_point_grid_shift (N m b : nat) (theta R r : R) :
  (1 <= N)%nat ->
  torus_point theta (INR ((m + b) mod N) * (2 * PI / INR N)) R r
  = torus_point theta (INR m * (2 * PI / INR N) + INR b * (2 * PI / INR N)) R r.
Proof.
  intros HN. unfold torus_point.
  rewrite cos_grid_mod, sin_grid_mod by assumption.
  rewrite plus_INR.
  replace ((INR m + INR b) * (2 * PI / INR N))
    with (INR m * (2 * PI / INR N) + INR b * (2 * PI / INR N)) by ring.
  reflexivity.
Qed.

Lemma shift_index_phi_div (N b i : nat) :
  (i < N * N)%nat -> (shift_index N 0 b i / N = i / N)%nat.
Proof.
  intros Hi. assert (HN : (1 <= N)%nat) by (destruct N; simpl in Hi; lia).
  unfold shift_index. rewrite div_mul_add by (apply Nat.mod_upper_bound; lia).
  rewrite Nat.add_0_r. apply Nat.mod_small. apply div_lt_sq. assumption.
Qed.

Lemma shift_index_phi_mod (N b i : nat) :
  (1 <= N)%nat -> (shift_index N 0 b i mod N = (i mod N + b) mod N)%nat.
Proof.
  intros HN. unfold shift_index. apply mod_mul_add. apply Nat.mod_upper_bound. lia.
Qed.

Lemma shift_index_lt (N a b i : nat) : (1 <= N)%nat -> (shift_index N a b i < N * N)%nat.
Proof.
  intros HN. unfold shift_index. apply flat_index_lt; apply Nat.mod_upper_bound; lia.
Qed.

Lemma shift_index_phi_inj (N b i j : nat) :
  (i < N * N)%nat -> (j < N * N)%nat ->
  shift_index N 0 b i = shift_index N 0 b j -> i = j.
Proof.
  intros Hi Hj E.
  assert (HN : (1 <= N)%nat) by (destruct N; simpl in Hi; lia).
  assert (Ed : (i / N = j / N)%nat).
  { rewrite <- (shift_index_phi_div N b i Hi), <- (shift_index_phi_div N b j Hj), E.
    reflexivity. }
  assert (Em : ((i mod N + b) mod N = (j mod N + b) mod N)%nat).
  { rewrite <- !shift_index_phi_mod by assumption. rewrite E. reflexivity. }
  assert (Em' : (i mod N = j mod N)%nat).
  { rewrite <- (Nat.Div0.add_mod_idemp_r (i mod N) b N) in Em.
    rewrite <- (Nat.Div0.add_mod_idemp_r (j mod N) b N) in Em.
    pose proof (mod_lt_pos N b HN) as Hb.
    rewrite <- (shift_forth_back N (i mod N) (b mod N)) by (try apply mod_lt_pos; lia).
    rewrite Em.
    apply shift_forth_back; [apply mod_lt_pos; assumption | lia]. }
  rewrite (Nat.div_mod_eq i N), (Nat.div_mod_eq j N), Ed, Em'. reflexivity.
Qed.

(** For a distance kernel, [matrix_entry] does not change when the phi
    indices of both its points are shifted by the same amount. *)
Lemma matrix_entry_phi_shift (N b i j : nat) (K : Kernel) (R r : R) (si : bool) :
  distance_kernel K -> (i < N * N)%nat -> (j < N * N)%nat ->
  matrix_entry (shift_index N 0 b i) (shift_index N 0 b j) N K R r si
  = matrix_entry i j N K R r si.
Proof.
  intros [h Hh] Hi Hj.
  assert (HN : (1 <= N)%nat) by (destruct N; simpl in Hi; lia).
  unfold matrix_entry.
  rewrite !shift_index_phi_div, !shift_index_phi_mod by assumption.
  assert (Eb : (shift_index N 0 b i =? shift_index N 0 b j)%nat = (i =? j)%nat).
  { destruct (Nat.eqb_spec i j) as [->|Hne]; [apply Nat.eqb_refl|].
    apply Nat.eqb_neq. intros E. apply Hne.
    apply (shift_index_phi_inj N b); assumption. }
  rewrite Eb. destruct ((i =? j)%nat && negb si); [reflexivity|].
  rewrite !Hh, !torus_point_grid_shift by assumption.
  rewrite torus_distance_rotation. reflexivity.
Qed.

(** ** The driver's configuration: N = 4, R = 1, lamb = -1, r = 0.05,
       squared-distance kernel, self-interaction on *)

Lemma square_distance_value (p q : Point3D) :
  square_distance_kernel p q
  = (px q - px p) * (px q - px p) + (py q - py p) * (py q - py p)
    + (pz q - pz p) * (pz q - pz p).
Proof.
  unfold square_distance_kernel, norm, psub. cbn [px py pz].
  apply pow2_sqrt.
  repeat apply Rplus_le_le_0_compat; apply Rle_0_sqr.
Qed.

Lemma grid_angle_4_1 : INR 1 * (2 * PI / INR 4) = PI / 2.
Proof. simpl. field. Qed.

Lemma driver_entry_0_1 :
  matrix_entry 0 1 4 square_distance_kernel 1 (1/20) true
  = (PI / 2) ^ 2 * (2 * (21/20) ^ 2) * (1/20) * (21/20).
Proof.
  unfold matrix_entry.
  change (0 / 4)%nat with 0%nat. change (1 / 4)%nat with 0%nat.
  change (0 mod 4)%nat with 0%nat. change (1 mod 4)%nat with 1%nat.
  cbn [Nat.eqb andb negb].
  rewrite square_distance_value. unfold torus_point. cbn [px py pz].
  rewrite grid_angle_4_1. change (INR 0) with 0. rewrite Rmult_0_l.
  rewrite cos_0, sin_0, cos_PI2, sin_PI2.
  replace (2 * PI / INR 4) with (PI / 2) by (simpl; field).
  field.
Qed.

Lemma driver_entry_4_5 :
  matrix_entry 4 5 4 square_distance_kernel 1 (1/20) true
  = (PI / 2) ^ 2 * 2 * (1/20) * 1.
Proof.
  unfold matrix_entry.
  change (4 / 4)%nat with 1%nat. change (5 / 4)%nat with 1%nat.
  change (4 mod 4)%nat with 0%nat. change (5 mod 4)%nat with 1%nat.
  cbn [Nat.eqb andb negb].
  rewrite square_distance_value. unfold torus_point. cbn [px py pz].
  rewrite grid_angle_4_1. change (INR 0) with 0. rewrite Rmult_0_l.
  rewrite cos_0, sin_0, cos_PI2, sin_PI2.
  replace (2 * PI / INR 4) with (PI / 2) by (simpl; field).
  field.
Qed.

(** Shifting both indices by one step in theta changes the entry. *)
Lemma driver_matrix_theta_shift_differs :
  rentry (full_matrix 4 square_distance_kernel (-1) 1 (1/20) true) 0 1
  <> rentry (full_matrix 4 square_distance_kernel (-1) 1 (1/20) true) 4 5.
Proof.
  rewrite !full_matrix_entry by (simpl; lia).
  rewrite driver_entry_0_1, driver_entry_4_5. cbn [Nat.eqb].
  pose proof PI_RGT_0 as HPI. intros E.
  assert (H2 : 0 < PI * PI) by nra.
  nra.
Qed.

Lemma shift_index_phi_eqb (N b i j : nat) :
  (i < N * N)%nat -> (j < N * N)%nat ->
  (shift_index N 0 b i =? shift_index N 0 b j)%nat = (i =? j)%nat.
Proof.
  intros Hi Hj. destruct (Nat.eqb_spec i j) as [->|Hne]; [apply Nat.eqb_refl|].
  apply Nat.eqb_neq. intros E. apply Hne.
  apply (shift_index_phi_inj N b); assumption.
Qed.

Lemma full_matrix_phi_shift (N b i j : nat) (K : Kernel) (lamb R r : R) (si : bool) :
  distance_kernel K -> (i < N * N)%nat -> (j < N * N)%nat ->
  rentry (full_matrix N K lamb R r si) (shift_index N 0 b i) (shift_index N 0 b j)
  = rentry (full_matrix N K lamb R r si) i j.
Proof.
  intros HK Hi Hj.
  assert (HN : (1 <= N)%nat) by (destruct N; simpl in Hi; lia).
  rewrite !full_matrix_entry
    by (rewrite pow2_mul; try apply shift_index_lt; assumption).
  rewrite matrix_entry_phi_shift, shift_index_phi_eqb by assumption.
  reflexivity.
Qed.

Lemma shift_index_to_phi_zero (N i : nat) :
  (i < N * N)%nat -> shift_index N 0 (N - i mod N) i = (i / N * N)%nat.
Proof.
  intros Hi. assert (HN : (1 <= N)%nat) by (destruct N; simpl in Hi; lia).
  pose proof (mod_lt_pos N i HN). pose proof (div_lt_sq N i Hi).
  unfold shift_index. rewrite Nat.add_0_r, (Nat.mod_small (i / N)) by assumption.
  replace (i mod N + (N - i mod N))%nat with N by lia.
  rewrite Nat.Div0.mod_same. lia.
Qed.

Lemma shift_index_kappa (N i j : nat) :
  (i < N)%nat -> shift_index N 0 (N - i) j = kappa N i j.
Proof.
  intros Hi. unfold shift_index, kappa.
  rewrite (Nat.div_small i N), (Nat.mod_small i N) by assumption.
  rewrite Nat.add_0_r, Nat.sub_0_r.
  replace (j / N + N)%nat with (j / N + 1 * N)%nat by lia.
  rewrite Nat.Div0.mod_add.
  replace (j mod N + N - i)%nat with (j mod N + (N - i))%nat by lia.
  reflexivity.
Qed.

Lemma kappa_row_zero (N i : nat) : (i < N)%nat -> kappa N i i = 0%nat.
Proof.
  intros Hi. unfold kappa.
  rewrite (Nat.div_small i N), (Nat.mod_small i N) by assumption.
  replace (0 + N - 0)%nat with N by lia.
  replace (i + N - i)%nat with N by lia.
  rewrite Nat.Div0.mod_same. reflexivity.
Qed.

(** Entry [(i, j)] of the reconstructed matrix is the entry of the first
    row of [full_matrix] at column [kappa N i j]. *)
Lemma approx_entry_first_row (N i j : nat) (K : Kernel) (lamb R r : R) (si : bool) :
  (1 <= N)%nat -> (i < N * N)%nat -> (j < N * N)%nat ->
  rentry (tabulate (N * N) (N * N)
            (fun i j => nth (kappa N i j) (get_filter N K lamb R r si) 0)) i j
  = rentry (full_matrix N K lamb R r si) 0 (kappa N i j).
Proof.
  intros HN Hi Hj. unfold rentry at 1. rewrite entry_tabulate by assumption.
  rewrite get_filter_first_row by assumption. reflexivity.
Qed.

(** ** When the logarithmic kernel is evaluated at positive distances only *)

Lemma cos_one_small (d : R) : cos d = 1 -> - (2 * PI) < d < 2 * PI -> d = 0.
Proof.
  intros Hc [Hlo Hhi].
  replace d with (2 * (d / 2)) in Hc by field.
  rewrite cos_2a_sin in Hc.
  assert (Hs : sin (d / 2) = 0).
  { apply Rsqr_0_uniq. unfold Rsqr. lra. }
  apply sin_eq_0_0 in Hs. destruct Hs as [k Hk].
  pose proof PI_RGT_0 as HPI.
  assert (Hk0 : k = 0%Z).
  { apply one_IZR_lt1. split.
    - apply (Rmult_lt_reg_r PI); [assumption|]. lra.
    - apply (Rmult_lt_reg_r PI); [assumption|]. lra. }
  subst k. lra.
Qed.

Lemma grid_angle_bounds (N a : nat) :
  (a < N)%nat -> 0 <= INR a * (2 * PI / INR N) < 2 * PI.
Proof.
  intros Ha.
  assert (HN : 0 < INR N) by (apply lt_0_INR; lia).
  assert (H0 : 0 <= INR a) by apply pos_INR.
  assert (H1 : INR a < INR N) by (apply lt_INR; assumption).
  pose proof PI_RGT_0 as HPI.
  assert (Hw : 0 < 2 * PI / INR N).
  { apply Rmult_lt_0_compat; [lra | apply Rinv_0_lt_compat; assumption]. }
  assert (E : INR N * (2 * PI / INR N) = 2 * PI) by (field; lra).
  split.
  - apply Rmult_le_pos; lra.
  - apply (Rlt_le_trans _ (INR N * (2 * PI / INR N)));
      [apply Rmult_lt_compat_r; assumption | lra].
Qed.

Lemma grid_angle_inj (N a b : nat) :
  (a < N)%nat -> (b < N)%nat ->
  cos (INR a * (2 * PI / INR N)) = cos (INR b * (2 * PI / INR N)) ->
  sin (INR a * (2 * PI / INR N)) = sin (INR b * (2 * PI / INR N)) ->
  a = b.
Proof.
  intros Ha Hb Hc Hs.
  pose proof (grid_angle_bounds N a Ha) as Ba.
  pose proof (grid_angle_bounds N b Hb) as Bb.
  set (x := INR a * (2 * PI / INR N)) in *.
  set (y := INR b * (2 * PI / INR N)) in *.
  assert (Hd : x - y = 0).
  { apply cos_one_small; [|lra].
    rewrite cos_minus, Hc, Hs.
    pose proof (sin2_cos2 y) as H. unfold Rsqr in H. lra. }
  assert (HN : 0 < INR N) by (apply lt_0_INR; lia).
  pose proof PI_RGT_0 as HPI.
  assert (Hw : 0 < 2 * PI / INR N).
  { apply Rmult_lt_0_compat; [lra | apply Rinv_0_lt_compat; assumption]. }
  apply INR_eq. apply (Rmult_eq_reg_r (2 * PI / INR N)); [|lra].
  subst x y. lra.
Qed.

(** On a torus with [0 < r < R] the grid points are pairwise distinct. *)
Lemma grid_points_distinct (N i j : nat) (R r : R) :
  0 < r < R -> (i < N * N)%nat -> (j < N * N)%nat ->
  grid_point N i R r = grid_point N j R r -> i = j.
Proof.
  intros [Hr HR] Hi Hj E.
  assert (HN : (1 <= N)%nat) by (destruct N; simpl in Hi; lia).
  unfold grid_point, torus_point in E.
  set (ti := INR (i / N) * (2 * PI / INR N)) in *.
  set (tj := INR (j / N) * (2 * PI / INR N)) in *.
  set (pi := INR (i mod N) * (2 * PI / INR N)) in *.
  set (pj := INR (j mod N) * (2 * PI / INR N)) in *.
  injection E as Ex Ey Ez.
  assert (Hsin : sin ti = sin tj).
  { apply (Rmult_eq_reg_l r); lra. }
  pose proof (COS_bound ti) as [Hci _]. pose proof (COS_bound tj) as [Hcj _].
  assert (HAi : 0 < R + r * cos ti) by nra.
  assert (HAj : 0 < R + r * cos tj) by nra.
  set (Ai := R + r * cos ti) in *. set (Aj := R + r * cos tj) in *.
  assert (Hsq : Ai * Ai = Aj * Aj).
  { pose proof (sin2_cos2 pi) as Hpi. pose proof (sin2_cos2 pj) as Hpj.
    unfold Rsqr in Hpi, Hpj.
    transitivity ((Ai * cos pi) * (Ai * cos pi) + (Ai * sin pi) * (Ai * sin pi)).
    - transitivity (Ai * Ai * (sin pi * sin pi + cos pi * cos pi)); [|ring].
      rewrite Hpi. ring.
    - rewrite Ex, Ey.
      transitivity (Aj * Aj * (sin pj * sin pj + cos pj * cos pj)); [ring|].
      rewrite Hpj. ring. }
  assert (HA : Ai = Aj).
  { assert (H0 : (Ai - Aj) * (Ai + Aj) = 0) by (ring_simplify; lra).
    apply Rmult_integral in H0. destruct H0; lra. }
  assert (Hcos : cos ti = cos tj).
  { subst Ai Aj. apply (Rmult_eq_reg_l r); lra. }
  rewrite HA in Ex, Ey.
  assert (Hcp : cos pi = cos pj) by (apply (Rmult_eq_reg_l Aj); lra).
  assert (Hsp : sin pi = sin pj) by (apply (Rmult_eq_reg_l Aj); lra).
  pose proof (grid_angle_inj N (i / N) (j / N) (div_lt_sq N i Hi) (div_lt_sq N j Hj)
                Hcos Hsin) as Ed.
  pose proof (grid_angle_inj N (i mod N) (j mod N) (mod_lt_pos N i HN) (mod_lt_pos N j HN)
                Hcp Hsp) as Em.
  rewrite (Nat.div_mod_eq i N), (Nat.div_mod_eq j N), Ed, Em. reflexivity.
Qed.

Lemma log_defined_on_proper_torus (N : nat) (R r : R) :
  0 < r < R -> log_evaluations_defined N log_kernel R r false.
Proof.
  intros Hr _. split; [reflexivity|].
  intros i j Hi Hj Hne E. apply Hne. rewrite pow2_mul in Hi, Hj.
  apply (grid_points_distinct N i j R r); assumption.
Qed.

(** With self-interaction on, the logarithm is evaluated at distance zero
    on the diagonal: the condition excludes that configuration. *)
Lemma log_undefined_with_self_interaction (N : nat) (R r : R) :
  ~ log_evaluations_defined N log_kernel R r true.
Proof. intros H. destruct (H eq_refl) as [E _]. discriminate. Qed.

Lemma unit_distance : norm (psub (mkPoint 1 0 0) (mkPoint 0 0 0)) = 1.
Proof.
  unfold norm, psub. cbn [px py pz].
  replace ((1 - 0) * (1 - 0) + (0 - 0) * (0 - 0) + (0 - 0) * (0 - 0)) with 1 by ring.
  apply sqrt_1.
Qed.

Lemma exp_kernel_not_log : exp_kernel <> log_kernel.
Proof.
  intros E.
  apply (f_equal (fun K : Kernel => K (mkPoint 0 0 0) (mkPoint 1 0 0))) in E.
  unfold exp_kernel, log_kernel in E. rewrite unit_distance, ln_1 in E.
  pose proof (exp_pos (Ropp 1)). lra.
Qed.

Lemma square_distance_kernel_not_log : square_distance_kernel <> log_kernel.
Proof.
  intros E.
  apply (f_equal (fun K : Kernel => K (mkPoint 0 0 0) (mkPoint 1 0 0))) in E.
  unfold square_distance_kernel, log_kernel in E. rewrite unit_distance, ln_1 in E.
  lra.
Qed.

Lemma log_defined_other_kernel (N : nat) (K : Kernel) (R r : R) (si : bool) :
  K <> log_kernel -> log_evaluations_defined N K R r si.
Proof. intros Hne E. contradiction. Qed.

(** C2 (as stated) fails in the driver's own configuration: shifting the
    theta index of both points by one changes the entry. *)
Lemma block_circulant_counterexample :
  rentry (full_matrix 4 square_distance_kernel (-1) 1 (1/20) true) 0 1
  <> rentry (full_matrix 4 square_distance_kernel (-1) 1 (1/20) true)
            (shift_index 4 1 0 0) (shift_index 4 1 0 1).
Proof.
  change (shift_index 4 1 0 0) with 4%nat. change (shift_index 4 1 0 1) with 5%nat.
  exact driver_matrix_theta_shift_differs.
Qed.

(** C2 (amended): for the three distance kernels, the logarithm being
    evaluated at positive distances only, [full_matrix] is invariant under
    shifts of the phi index of both its row and its column (the group
    elements [(0, b)]); so it is determined by its rows of phi index 0. *)
Theorem full_matrix_phi_invariance :
  forall (N : nat) (kernel : Kernel) (lamb R r : R) (self_interact : bool)
         (b i j : nat),
    (1 <= N)%nat ->
    In kernel [log_kernel; exp_kernel; square_distance_kernel] ->
    log_evaluations_defined N kernel R r self_interact ->
    (i < N ^ 2)%nat -> (j < N ^ 2)%nat ->
    let M := full_matrix N kernel lamb R r self_interact in
    rentry M i j = rentry M (shift_index N 0 b i) (shift_index N 0 b j) /\
    rentry M i j = rentry M (i / N * N) (shift_index N 0 (N - i mod N) j).
Proof.
  intros N kernel lamb R r si b i j HN HK _ Hi Hj M. subst M.
  rewrite pow2_mul in Hi, Hj. apply builtin_kernels_distance in HK.
  split.
  - symmetry. apply full_matrix_phi_shift; assumption.
  - rewrite <- (shift_index_to_phi_zero N i Hi).
    symmetry. apply full_matrix_phi_shift; assumption.
Qed.

Lemma full_matrix_phi_invariance_witness :
  let M := full_matrix 4 log_kernel (-1) 1 (1/20) false in
  rentry M 1 6 = rentry M (shift_index 4 0 3 1) (shift_index 4 0 3 6) /\
  rentry M 1 6 = rentry M (1 / 4 * 4) (shift_index 4 0 (4 - 1 mod 4) 6).
Proof.
  apply (full_matrix_phi_invariance 4 log_kernel (-1) 1 (1/20) false 3 1 6);
    [ lia | left; reflexivity | apply log_defined_on_proper_torus; lra
    | simpl; lia | simpl; lia ].
Defined.

(** C1 (as stated) fails in the driver's own configuration: the loop does
    return a matrix, and its entry (4, 5) is not that of [full_matrix]. *)
Lemma reconstruction_counterexample :
  exists approx : RMatrix,
    driver_approx 4 square_distance_kernel (-1) 1 (1/20) true = Some approx /\
    rentry approx 4 5
    <> rentry (full_matrix 4 square_distance_kernel (-1) 1 (1/20) true) 4 5.
Proof.
  eexists. split; [apply driver_approx_eq; lia|].
  rewrite approx_entry_first_row by (simpl; lia).
  change (kappa 4 4 5) with 1%nat.
  exact driver_matrix_theta_shift_differs.
Qed.

(** C1 (amended): for [N >= 1] and the three kernels, the logarithm being
    evaluated at positive distances only, the driver loop returns an [N^2]
    by [N^2] matrix whose entry [(i, j)] is the entry of the first row of
    [full_matrix] at column [kappa N i j] (the block-circulant matrix
    generated by that row); it agrees with [full_matrix] on every row of
    theta index 0, that is for [i < N]. *)
Theorem reconstruction_first_block_rows :
  forall (N : nat) (kernel : Kernel) (lamb R r : R) (self_interact : bool),
    (1 <= N)%nat ->
    In kernel [log_kernel; exp_kernel; square_distance_kernel] ->
    log_evaluations_defined N kernel R r self_interact ->
    exists approx : RMatrix,
      driver_approx N kernel lamb R r self_interact = Some approx /\
      length approx = (N ^ 2)%nat /\
      (forall row, In row approx -> length row = (N ^ 2)%nat) /\
      (forall i j, (i < N ^ 2)%nat -> (j < N ^ 2)%nat ->
         rentry approx i j
         = rentry (full_matrix N kernel lamb R r self_interact) 0 (kappa N i j)) /\
      (forall i j, (i < N)%nat -> (j < N ^ 2)%nat ->
         rentry approx i j
         = rentry (full_matrix N kernel lamb R r self_interact) i j).
Proof.
  intros N kernel lamb R r si HN HK _. rewrite pow2_mul.
  apply builtin_kernels_distance in HK.
  eexists. split; [apply driver_approx_eq; assumption|].
  split; [apply length_tabulate|].
  split; [intros row; apply row_length_tabulate|].
  split.
  - intros i j Hi Hj. apply approx_entry_first_row; assumption.
  - intros i j Hi Hj. assert (Hi' : (i < N * N)%nat) by nia.
    rewrite approx_entry_first_row by assumption.
    rewrite <- (full_matrix_phi_shift N (N - i) i j) by assumption.
    rewrite (shift_index_kappa N i i), (shift_index_kappa N i j) by assumption.
    rewrite kappa_row_zero by assumption. reflexivity.
Qed.

Lemma reconstruction_first_block_rows_witness :
  exists approx : RMatrix,
    driver_approx 4 log_kernel (-1) 1 (1/20) false = Some approx /\
    length approx = (4 ^ 2)%nat /\
    (forall row, In row approx -> length row = (4 ^ 2)%nat) /\
    (forall i j, (i < 4 ^ 2)%nat -> (j < 4 ^ 2)%nat ->
       rentry approx i j
       = rentry (full_matrix 4 log_kernel (-1) 1 (1/20) false) 0 (kappa 4 i j)) /\
    (forall i j, (i < 4)%nat -> (j < 4 ^ 2)%nat ->
       rentry approx i j
       = rentry (full_matrix 4 log_kernel (-1) 1 (1/20) false) i j).
Proof.
  apply (reconstruction_first_block_rows 4 log_kernel (-1) 1 (1/20) false);
    [ lia | left; reflexivity | apply log_defined_on_proper_torus; lra ].
Defined.

(** * Further properties of the pipeline *)

(** ** Kernels *)

Lemma sum_squares_nonneg (a b c : R) : 0 <= a * a + b * b + c * c.
Proof. repeat apply Rplus_le_le_0_compat; apply Rle_0_sqr. Qed.

Lemma sum_squares_zero (a b c : R) :
  a * a + b * b + c * c = 0 -> a = 0 /\ b = 0 /\ c = 0.
Proof.
  intros H.
  pose proof (Rle_0_sqr a) as Ha. pose proof (Rle_0_sqr b) as Hb.
  pose proof (Rle_0_sqr c) as Hc. unfold Rsqr in *.
  assert (a * a = 0) by lra. assert (b * b = 0) by lra. assert (c * c = 0) by lra.
  repeat split; apply Rsqr_0_uniq; unfold Rsqr; assumption.
Qed.

Lemma norm_nonneg (p : Point3D) : 0 <= norm p.
Proof. unfold norm. apply sqrt_pos. Qed.

Lemma norm_psub_zero_iff (p q : Point3D) : norm (psub q p) = 0 <-> p = q.
Proof.
  unfold norm, psub. cbn [px py pz]. split.
  - intros H. apply sqrt_eq_0 in H; [|apply sum_squares_nonneg].
    apply sum_squares_zero in H. destruct H as [Hx [Hy Hz]].
    destruct p, q. cbn [px py pz] in *. f_equal; lra.
  - intros ->.
    replace ((px q - px q) * (px q - px q) + (py q - py q) * (py q - py q)
             + (pz q - pz q) * (pz q - pz q)) with 0 by ring.
    apply sqrt_0.
Qed.

(** X1: the squared-distance kernel is the sum of the squared coordinate
    differences; it is never negative and vanishes exactly on equal
    points. *)
Theorem square_distance_kernel_zero_iff :
  forall p q : Point3D,
    square_distance_kernel p q
    = (px q - px p) ^ 2 + (py q - py p) ^ 2 + (pz q - pz p) ^ 2 /\
    0 <= square_distance_kernel p q /\
    (square_distance_kernel p q = 0 <-> p = q).
Proof.
  intros p q. rewrite square_distance_value. split; [ring|]. split.
  - apply sum_squares_nonneg.
  - rewrite <- norm_psub_zero_iff. unfold norm, psub. cbn [px py pz]. split.
    + intros H. rewrite H. apply sqrt_0.
    + intros H. apply sqrt_eq_0 in H; [assumption | apply sum_squares_nonneg].
Qed.

(** X2: the exponential kernel takes its values in (0, 1] and equals 1
    exactly on equal points. *)
Theorem exp_kernel_range :
  forall p q : Point3D,
    0 < exp_kernel p q <= 1 /\ (exp_kernel p q = 1 <-> p = q).
Proof.
  intros p q. unfold exp_kernel.
  pose proof (norm_nonneg (psub q p)) as Hn.
  assert (Hle : exp (- norm (psub q p)) <= 1).
  { destruct Hn as [Hpos | Hz].
    - left. rewrite <- exp_0. apply exp_increasing. lra.
    - rewrite <- Hz, Ropp_0, exp_0. lra. }
  split; [split; [apply exp_pos | exact Hle]|].
  rewrite <- norm_psub_zero_iff. split.
  - intros H. destruct Hn as [Hpos | Hz]; [|symmetry; exact Hz].
    exfalso. assert (exp (- norm (psub q p)) < exp 0) by (apply exp_increasing; lra).
    rewrite exp_0 in *. lra.
  - intros ->. rewrite Ropp_0. apply exp_0.
Qed.

(** X3: the logarithmic kernel is symmetric, and on distinct points it is
    half the logarithm of the squared-distance kernel. *)
Theorem log_kernel_symmetric :
  forall p q : Point3D,
    log_kernel p q = log_kernel q p /\
    (p <> q -> 2 * log_kernel p q = ln (square_distance_kernel p q)).
Proof.
  intros p q. unfold log_kernel, square_distance_kernel. split.
  - rewrite (norm_psub_sym q p). reflexivity.
  - intros Hne.
    assert (Hpos : 0 < norm (psub q p)).
    { destruct (norm_nonneg (psub q p)) as [H | H]; [exact H|].
      exfalso. apply Hne. apply norm_psub_zero_iff. symmetry. exact H. }
    replace (norm (psub q p) ^ 2) with (norm (psub q p) * norm (psub q p)) by ring.
    rewrite ln_mult by assumption. ring.
Qed.

Lemma log_kernel_symmetric_witness :
  2 * log_kernel (mkPoint 0 0 0) (mkPoint 1 0 0)
  = ln (square_distance_kernel (mkPoint 0 0 0) (mkPoint 1 0 0)).
Proof.
  apply (log_kernel_symmetric (mkPoint 0 0 0) (mkPoint 1 0 0)).
  intros H. apply (f_equal px) in H. cbn [px] in H. lra.
Defined.

(** ** Geometry *)

(** X4: every value of [torus_point] satisfies the implicit equation of
    the torus of radii [R] and [r]. *)
Theorem torus_point_on_torus :
  forall theta phi R r : R,
    let p := torus_point theta phi R r in
    (px p ^ 2 + py p ^ 2 + pz p ^ 2 + R ^ 2 - r ^ 2) ^ 2
    = 4 * R ^ 2 * (px p ^ 2 + py p ^ 2).
Proof.
  intros theta phi R r p. subst p. unfold torus_point. cbn [px py pz].
  pose proof (sin2_cos2 phi) as Hp. pose proof (sin2_cos2 theta) as Ht.
  unfold Rsqr in Hp, Ht.
  assert (Es : sin phi * sin phi = 1 - cos phi * cos phi) by lra.
  assert (Et : sin theta * sin theta = 1 - cos theta * cos theta) by lra.
  set (A := R + r * cos theta).
  replace ((A * cos phi) ^ 2 + (A * sin phi) ^ 2)
    with (A ^ 2 * (sin phi * sin phi + cos phi * cos phi)) by ring.
  rewrite Hp, Rmult_1_r.
  replace ((r * sin theta) ^ 2) with (r ^ 2 * (sin theta * sin theta)) by ring.
  rewrite Et. subst A. ring.
Qed.

Lemma cos_plus_2PI (x : R) : cos (x + 2 * PI) = cos x.
Proof.
  replace (x + 2 * PI) with (x + 2 * INR 1 * PI) by (simpl; ring). apply cos_period.
Qed.

Lemma sin_plus_2PI (x : R) : sin (x + 2 * PI) = sin x.
Proof.
  replace (x + 2 * PI) with (x + 2 * INR 1 * PI) by (simpl; ring). apply sin_period.
Qed.

(** X5: [torus_point] has period [2 * PI] in both angles, and on the grid
    of step [2 * PI / N] an index and its remainder modulo [N] give the
    same point. *)
Theorem torus_point_periodic :
  forall (N a b : nat) (theta phi R r : R),
    (1 <= N)%nat ->
    torus_point (theta + 2 * PI) phi R r = torus_point theta phi R r /\
    torus_point theta (phi + 2 * PI) R r = torus_point theta phi R r /\
    torus_point (INR (a mod N) * (2 * PI / INR N)) (INR (b mod N) * (2 * PI / INR N)) R r
    = torus_point (INR a * (2 * PI / INR N)) (INR b * (2 * PI / INR N)) R r.
Proof.
  intros N a b theta phi R r HN. unfold torus_point.
  rewrite !cos_grid_mod, !sin_grid_mod by assumption.
  rewrite !cos_plus_2PI, !sin_plus_2PI. repeat split; reflexivity.
Qed.

Lemma torus_point_periodic_witness :
  torus_point (INR (5 mod 4) * (2 * PI / INR 4)) (INR (7 mod 4) * (2 * PI / INR 4)) 1 (1/20)
  = torus_point (INR 5 * (2 * PI / INR 4)) (INR 7 * (2 * PI / INR 4)) 1 (1/20).
Proof. apply (torus_point_periodic 4 5 7 0 0 1 (1/20)). lia. Defined.

(** X6: the squared distance between two torus points depends on their
    phi angles through the difference only. *)
Theorem torus_square_distance :
  forall theta1 phi1 theta2 phi2 R r : R,
    square_distance_kernel (torus_point theta1 phi1 R r) (torus_point theta2 phi2 R r)
    = (R + r * cos theta1) ^ 2 + (R + r * cos theta2) ^ 2
      - 2 * (R + r * cos theta1) * (R + r * cos theta2) * cos (phi2 - phi1)
      + r ^ 2 * (sin theta2 - sin theta1) ^ 2.
Proof.
  intros theta1 phi1 theta2 phi2 R r. rewrite square_distance_value.
  unfold torus_point. cbn [px py pz]. rewrite cos_minus.
  pose proof (sin2_cos2 phi1) as H1. pose proof (sin2_cos2 phi2) as H2.
  unfold Rsqr in H1, H2.
  set (A1 := R + r * cos theta1). set (A2 := R + r * cos theta2).
  transitivity (A1 * A1 * (sin phi1 * sin phi1 + cos phi1 * cos phi1)
                + A2 * A2 * (sin phi2 * sin phi2 + cos phi2 * cos phi2)
                - 2 * A1 * A2 * (cos phi2 * cos phi1 + sin phi2 * sin phi1)
                + r ^ 2 * (sin theta2 - sin theta1) ^ 2).
  - ring.
  - rewrite H1, H2. ring.
Qed.

(** ** Matrix assembly *)

Lemma square_distance_same (p : Point3D) : square_distance_kernel p p = 0.
Proof. rewrite square_distance_value. ring. Qed.

Lemma matrix_entry_square_distance_flag (i j N : nat) (R r : R) :
  matrix_entry i j N square_distance_kernel R r true
  = matrix_entry i j N square_distance_kernel R r false.
Proof.
  unfold matrix_entry. destruct (Nat.eqb_spec i j) as [->|Hne]; cbn [andb negb].
  - rewrite square_distance_same. ring.
  - reflexivity.
Qed.

(** X7: for [N >= 1], with the squared-distance kernel the
    [self_interact] flag has no effect: the diagonal term is zero either
    way, so [matrix_entry], [full_matrix] and [get_filter] give the same
    result for both values. *)
Theorem square_distance_self_interact_irrelevant :
  forall (N : nat) (lamb R r : R),
    (1 <= N)%nat ->
    (forall i j, matrix_entry i j N square_distance_kernel R r true
                 = matrix_entry i j N square_distance_kernel R r false) /\
    full_matrix N square_distance_kernel lamb R r true
    = full_matrix N square_distance_kernel lamb R r false /\
    get_filter N square_distance_kernel lamb R r true
    = get_filter N square_distance_kernel lamb R r false.
Proof.
  intros N lamb R r _. split; [|split].
  - intros i j. apply matrix_entry_square_distance_flag.
  - unfold full_matrix. apply map_ext. intros i. apply map_ext. intros j.
    cbv zeta. rewrite matrix_entry_square_distance_flag. reflexivity.
  - unfold get_filter. rewrite matrix_entry_square_distance_flag. f_equal.
    apply map_ext. intros j. rewrite matrix_entry_square_distance_flag. reflexivity.
Qed.

Lemma square_distance_self_interact_irrelevant_witness :
  (forall i j, matrix_entry i j 4 square_distance_kernel 1 (1/20) true
               = matrix_entry i j 4 square_distance_kernel 1 (1/20) false) /\
  full_matrix 4 square_distance_kernel (-1) 1 (1/20) true
  = full_matrix 4 square_distance_kernel (-1) 1 (1/20) false /\
  get_filter 4 square_distance_kernel (-1) 1 (1/20) true
  = get_filter 4 square_distance_kernel (-1) 1 (1/20) false.
Proof. apply (square_distance_self_interact_irrelevant 4 (-1) 1 (1/20)). lia. Defined.

(** X8: [full_matrix] is an [N^2] by [N^2] matrix; with self-interaction
    off its diagonal is exactly 1, whatever the kernel, and so is the first
    entry of [get_filter]. *)
Theorem full_matrix_shape_and_diagonal :
  forall (N i : nat) (kernel : Kernel) (lamb R r : R) (self_interact : bool),
    (i < N ^ 2)%nat ->
    length (full_matrix N kernel lamb R r self_interact) = (N ^ 2)%nat /\
    (forall row, In row (full_matrix N kernel lamb R r self_interact) ->
                 length row = (N ^ 2)%nat) /\
    rentry (full_matrix N kernel lamb R r false) i i = 1 /\
    nth 0 (get_filter N kernel lamb R r false) 0 = 1.
Proof.
  intros N i kernel lamb R r si Hi.
  split; [apply length_full_matrix|]. split; [|split].
  - intros row Hrow. unfold full_matrix, Py.range in Hrow.
    apply in_map_iff in Hrow. destruct Hrow as [k [<- _]].
    rewrite length_map, length_seq. reflexivity.
  - rewrite full_matrix_entry by assumption.
    unfold matrix_entry. rewrite Nat.eqb_refl. cbn [andb negb]. ring.
  - unfold get_filter, matrix_entry. cbn [app nth Nat.eqb andb negb]. ring.
Qed.

Lemma full_matrix_shape_and_diagonal_witness :
  rentry (full_matrix 4 log_kernel (-1) 1 (1/20) false) 5 5 = 1.
Proof.
  apply (full_matrix_shape_and_diagonal 4 5 log_kernel (-1) 1 (1/20) false).
  simpl. lia.
Defined.

(** X9: when [lamb = 0] or [r = 0], and the logarithm is evaluated at
    positive distances only, the assembled matrix is the identity: entry
    [(i, j)] of [full_matrix] is 1 on the diagonal and 0 elsewhere. *)
Theorem full_matrix_degenerate_identity :
  forall (N i j : nat) (kernel : Kernel) (lamb R r : R) (self_interact : bool),
    (i < N ^ 2)%nat -> (j < N ^ 2)%nat ->
    log_evaluations_defined N kernel R r self_interact ->
    lamb = 0 \/ r = 0 ->
    rentry (full_matrix N kernel lamb R r self_interact) i j
    = if (i =? j)%nat then 1 else 0.
Proof.
  intros N i j kernel lamb R r si Hi Hj _ H.
  rewrite full_matrix_entry by assumption.
  destruct H as [-> | ->].
  - ring.
  - unfold matrix_entry. destruct ((i =? j)%nat && negb si); ring.
Qed.

Lemma full_matrix_degenerate_identity_witness :
  rentry (full_matrix 4 exp_kernel 0 1 (1/20) true) 2 3 = 0.
Proof.
  apply (full_matrix_degenerate_identity 4 2 3 exp_kernel 0 1 (1/20) true);
    [ simpl; lia | simpl; lia
    | apply log_defined_other_kernel; exact exp_kernel_not_log
    | left; reflexivity ].
Defined.

(** ** Forcing and reference vectors *)

(** X10: without the integral term ([lamb = 0]) or on a degenerate torus
    ([r = 0]) the forcing function is the reference function, and the
    discretised forcing vector is the discretised reference vector. *)
Theorem forcing_without_integral_term :
  forall (N : nat) (theta phi lamb r : R),
    g theta phi 0 r = f theta phi /\
    g theta phi lamb 0 = f theta phi /\
    discretized_g 0 r N = discretized_f N /\
    discretized_g lamb 0 N = discretized_f N.
Proof.
  intros N theta phi lamb r.
  assert (E0 : forall t p, g t p 0 r = f t p) by (intros; unfold g, f; field).
  assert (E1 : forall t p, g t p lamb 0 = f t p) by (intros; unfold g, f; field).
  split; [apply E0|]. split; [apply E1|].
  unfold discretized_g, discretized_f.
  split; apply flat_map_ext; intros a; apply map_ext; intros b;
    [apply E0 | apply E1].
Qed.

Lemma grid_angle_range (N a : nat) :
  (a < N)%nat -> 0 <= INR a * 2 * PI / INR N <= 2 * PI.
Proof.
  intros Ha.
  assert (HN : 0 < INR N) by (apply lt_0_INR; lia).
  assert (H0 : 0 <= INR a) by apply pos_INR.
  assert (H1 : INR a <= INR N) by (apply le_INR; lia).
  pose proof PI_RGT_0 as HPI.
  assert (Hx : 0 <= INR a / INR N <= 1).
  { split.
    - apply Rmult_le_pos; [assumption | left; apply Rinv_0_lt_compat; assumption].
    - apply (Rmult_le_reg_r (INR N)); [assumption|].
      unfold Rdiv. rewrite Rmult_assoc, Rinv_l by lra. lra. }
  replace (INR a * 2 * PI / INR N) with (INR a / INR N * (2 * PI)) by (field; lra).
  split; nra.
Qed.

(** X11: every entry of the reference vector lies between 0 and
    [2 * PI^2]; the upper bound is reached at index 0, the grid point
    [(0, 0)]. *)
Theorem discretized_f_bounds :
  forall N i : nat,
    (1 <= N)%nat -> (i < N ^ 2)%nat ->
    0 <= nth i (discretized_f N) 0 <= 2 * PI ^ 2 /\
    nth 0 (discretized_f N) 0 = 2 * PI ^ 2.
Proof.
  intros N i HN Hi. rewrite pow2_mul in Hi.
  assert (B : forall t, 0 <= t <= 2 * PI -> 0 <= (t - PI) ^ 2 <= PI ^ 2).
  { intros t [Ht0 Ht1]. split; [apply pow2_ge_0|].
    assert (H : 0 <= t * (2 * PI - t)) by (apply Rmult_le_pos; lra).
    replace ((t - PI) ^ 2) with (PI ^ 2 - t * (2 * PI - t)) by ring. lra. }
  split.
  - unfold discretized_f.
    rewrite (nth_grid (fun a b => f (INR a * 2 * PI / INR N) (INR b * 2 * PI / INR N)))
      by assumption.
    unfold f.
    pose proof (B _ (grid_angle_range N (i / N) (div_lt_sq N i Hi))).
    pose proof (B _ (grid_angle_range N (i mod N) (mod_lt_pos N i HN))).
    lra.
  - unfold discretized_f.
    rewrite (nth_grid (fun a b => f (INR a * 2 * PI / INR N) (INR b * 2 * PI / INR N)))
      by nia.
    rewrite Nat.Div0.div_0_l, Nat.Div0.mod_0_l. unfold f. change (INR 0) with 0.
    unfold Rdiv. ring.
Qed.

Lemma discretized_f_bounds_witness :
  0 <= nth 6 (discretized_f 4) 0 <= 2 * PI ^ 2 /\
  nth 0 (discretized_f 4) 0 = 2 * PI ^ 2.
Proof. apply (discretized_f_bounds 4 6); [lia | simpl; lia]. Defined.

(** ** Group representations *)

(** X12: the three builders fail exactly when [N = 0], where the source
    pops from an empty list. *)
Theorem representations_fail_iff_zero :
  forall (N : nat) (kernel : Kernel) (lamb R r : R) (self_interact : bool),
    (get_cyclic_reps N = None <-> N = 0%nat) /\
    (get_cyclic_product_reps N = None <-> N = 0%nat) /\
    (driver_approx N kernel lamb R r self_interact = None <-> N = 0%nat).
Proof.
  intros N kernel lamb R r si. destruct N as [|n].
  - repeat split; reflexivity.
  - rewrite get_cyclic_reps_eq, get_cyclic_product_reps_eq, driver_approx_eq by lia.
    repeat split; discriminate.
Qed.

Lemma shift_by_opposite (N i k : nat) :
  (i < N)%nat -> (k < N)%nat ->
  ((i + N - (N - k) mod N) mod N = (i + k) mod N)%nat.
Proof.
  intros Hi Hk. destruct k as [|k].
  - rewrite Nat.sub_0_r, Nat.Div0.mod_same, Nat.sub_0_r, Nat.add_0_r.
    replace (i + N)%nat with (i + 1 * N)%nat by lia. apply Nat.Div0.mod_add.
  - rewrite (Nat.mod_small (N - S k)) by lia. f_equal. lia.
Qed.

Lemma cyc_perm_transpose (N k : nat) :
  (k < N)%nat -> transpose (cyc_perm N k) = cyc_perm N ((N - k) mod N).
Proof.
  intros Hk. unfold cyc_perm. rewrite transpose_tabulate by lia.
  apply tabulate_ext. intros i j Hi Hj.
  rewrite shift_by_opposite by assumption.
  pose proof (shift_eq_iff N i j k Hi Hj ltac:(lia)) as E.
  destruct (Nat.eqb_spec i ((j + N - k) mod N));
    destruct (Nat.eqb_spec j ((i + k) mod N)); try reflexivity; exfalso; tauto.
Qed.

(** X13: in the list returned by [get_cyclic_reps] the transpose of the
    matrix at index [k] is the matrix at index [(N - k) mod N], which is
    its inverse, and any two of the matrices commute. *)
Theorem get_cyclic_reps_inverse :
  forall N : nat,
    (1 <= N)%nat ->
    exists G : list ZMatrix,
      get_cyclic_reps N = Some G /\
      (forall k, (k < N)%nat ->
         transpose (nth k G []) = nth ((N - k) mod N) G [] /\
         matmul (nth k G []) (nth ((N - k) mod N) G []) = identity_matrix N) /\
      (forall k l, (k < N)%nat -> (l < N)%nat ->
         matmul (nth k G []) (nth l G []) = matmul (nth l G []) (nth k G [])).
Proof.
  intros N HN. exists (map (cyc_perm N) (seq 0 N)).
  split; [apply get_cyclic_reps_eq; assumption|]. split.
  - intros k Hk.
    assert (Hk' : ((N - k) mod N < N)%nat) by (apply Nat.mod_upper_bound; lia).
    rewrite !nth_map_seq by assumption. cbn [Nat.add]. split.
    + apply cyc_perm_transpose. assumption.
    + rewrite cyc_perm_matmul by assumption.
      rewrite Nat.Div0.add_mod_idemp_r.
      replace (k + (N - k))%nat with N by lia.
      rewrite Nat.Div0.mod_same. apply cyc_perm_zero_identity.
  - intros k l Hk Hl. rewrite !nth_map_seq by assumption. cbn [Nat.add].
    rewrite !cyc_perm_matmul by assumption. rewrite (Nat.add_comm k l). reflexivity.
Qed.

Lemma get_cyclic_reps_inverse_witness :
  exists G : list ZMatrix,
    get_cyclic_reps 3 = Some G /\
    (forall k, (k < 3)%nat ->
       transpose (nth k G []) = nth ((3 - k) mod 3) G [] /\
       matmul (nth k G []) (nth ((3 - k) mod 3) G []) = identity_matrix 3) /\
    (forall k l, (k < 3)%nat -> (l < 3)%nat ->
       matmul (nth k G []) (nth l G []) = matmul (nth l G []) (nth k G [])).
Proof. apply (get_cyclic_reps_inverse 3). lia. Defined.

(** X14: the matrix at index [k] of [get_cyclic_reps N] acts on a vector
    of length [N] as the cyclic shift by [k]: entry [j] of the product is
    entry [(j - k) mod N] of the vector. *)
Theorem get_cyclic_reps_shift_action :
  forall (N k : nat) (v : list Z),
    (1 <= N)%nat -> (k < N)%nat -> length v = N ->
    exists G : list ZMatrix,
      get_cyclic_reps N = Some G /\
      matvec (nth k G []) v = map (fun j => nth ((j + N - k) mod N) v 0%Z) (seq 0 N).
Proof.
  intros N k v HN Hk Hv. exists (map (cyc_perm N) (seq 0 N)).
  split; [apply get_cyclic_reps_eq; assumption|].
  rewrite nth_map_seq by assumption. cbn [Nat.add].
  unfold matvec, cyc_perm, tabulate. rewrite map_map.
  apply map_ext_in. intros j Hj. apply in_seq in Hj.
  rewrite zdot_indicator by assumption.
  pose proof (mod_lt_pos N (j + N - k) HN). case_bounds.
  rewrite Nat.sub_0_r. reflexivity.
Qed.

Lemma get_cyclic_reps_shift_action_witness :
  exists G : list ZMatrix,
    get_cyclic_reps 3 = Some G /\
    matvec (nth 1 G []) [10; 20; 30]%Z
    = map (fun j => nth ((j + 3 - 1) mod 3) [10; 20; 30]%Z 0%Z) (seq 0 3).
Proof.
  apply (get_cyclic_reps_shift_action 3 1 [10; 20; 30]%Z); [lia | lia | reflexivity].
Defined.

(** X15: the Kronecker products are generated already in key order: the
    keys [argmax (column mat 0)] of the list built by the two nested loops
    are [0, 1, ..., N^2 - 1], so the sort of [get_cyclic_product_reps]
    returns that list unchanged. *)
Theorem product_reps_sort_is_identity :
  forall N : nat,
    (1 <= N)%nat ->
    exists G : list ZMatrix,
      get_cyclic_reps N = Some G /\
      let reps := flat_map (fun mat1 => map (fun mat2 => kron mat1 mat2) G) G in
      map (fun mat => argmax (column mat 0)) reps = seq 0 (N ^ 2) /\
      Py.sorted (fun mat => argmax (column mat 0)) reps = reps.
Proof.
  intros N HN. exists (map (cyc_perm N) (seq 0 N)).
  split; [apply get_cyclic_reps_eq; assumption|]. cbv zeta.
  rewrite flat_map_map.
  assert (E : flat_map (fun a => map (fun mat2 => kron (cyc_perm N a) mat2)
                                     (map (cyc_perm N) (seq 0 N))) (seq 0 N)
              = map (fun k => kron (cyc_perm N (k / N)) (cyc_perm N (k mod N)))
                    (seq 0 (N * N))).
  { rewrite <- (grid_as_map (fun a b => kron (cyc_perm N a) (cyc_perm N b))).
    apply flat_map_ext. intros a. rewrite map_map. reflexivity. }
  rewrite E, pow2_mul.
  assert (K : forall k, (k < N * N)%nat ->
            argmax (column (kron (cyc_perm N (k / N)) (cyc_perm N (k mod N))) 0) = k).
  { intros k Hk.
    rewrite kron_cyc_key by (try apply div_lt_sq; try apply Nat.mod_upper_bound; lia).
    symmetry. rewrite Nat.mul_comm. apply Nat.div_mod_eq. }
  split.
  - rewrite map_map. rewrite <- (map_id (seq 0 (N * N))) at 2.
    apply map_ext_in. intros k Hk. apply in_seq in Hk. apply K. lia.
  - apply sorted_enumeration. intros k Hk. apply K. lia.
Qed.

Lemma product_reps_sort_is_identity_witness :
  exists G : list ZMatrix,
    get_cyclic_reps 2 = Some G /\
    let reps := flat_map (fun mat1 => map (fun mat2 => kron mat1 mat2) G) G in
    map (fun mat => argmax (column mat 0)) reps = seq 0 (2 ^ 2) /\
    Py.sorted (fun mat => argmax (column mat 0)) reps = reps.
Proof. apply (product_reps_sort_is_identity 2). lia. Defined.

(** ** Product representations *)

(** X16: in the matrix at index [k] of [get_cyclic_product_reps N], row
    [i] has its 1 in the column obtained from [i] by the group element
    [(k / N, k mod N)]; for given [(i, j)] the only matrix of the list with a
    1 at [(i, j)] is the one at index [kappa N i j]. *)
Theorem product_reps_entries :
  forall (N k i j : nat),
    (k < N ^ 2)%nat -> (i < N ^ 2)%nat -> (j < N ^ 2)%nat ->
    exists reps : list ZMatrix,
      get_cyclic_product_reps N = Some reps /\
      zentry (nth k reps []) i j
      = (if (j =? shift_index N (k / N) (k mod N) i)%nat then 1%Z else 0%Z) /\
      (zentry (nth k reps []) i j = 1%Z <-> k = kappa N i j) /\
      (kappa N i j < N ^ 2)%nat.
Proof.
  intros N k i j Hk Hi Hj. rewrite pow2_mul in *.
  assert (HN : (1 <= N)%nat) by (destruct N; simpl in Hk; lia).
  exists (map (prod_perm N) (seq 0 (N * N))).
  split; [apply get_cyclic_product_reps_eq; assumption|].
  rewrite nth_map_seq by assumption. cbn [Nat.add].
  unfold zentry, prod_perm. rewrite entry_tabulate by assumption.
  split; [apply prod_entry_sigma; assumption|].
  split; [|apply kappa_lt; assumption].
  rewrite prod_entry_kappa by assumption.
  destruct (Nat.eqb_spec k (kappa N i j)); split; intros; try assumption;
    try reflexivity; try discriminate; contradiction.
Qed.

Lemma product_reps_entries_witness :
  exists reps : list ZMatrix,
    get_cyclic_product_reps 2 = Some reps /\
    zentry (nth 3 reps []) 1 2
    = (if (2 =? shift_index 2 (3 / 2) (3 mod 2) 1)%nat then 1%Z else 0%Z) /\
    (zentry (nth 3 reps []) 1 2 = 1%Z <-> 3%nat = kappa 2 1 2) /\
    (kappa 2 1 2 < 2 ^ 2)%nat.
Proof. apply (product_reps_entries 2 3 1 2); simpl; lia. Defined.

Lemma prod_sigma_div (N k i : nat) :
  (1 <= N)%nat -> (prod_sigma N k i / N = (i / N + k / N) mod N)%nat.
Proof. intros HN. unfold prod_sigma. apply div_mul_add. apply mod_lt_pos. assumption. Qed.

Lemma prod_sigma_mod (N k i : nat) :
  (1 <= N)%nat -> (prod_sigma N k i mod N = (i mod N + k mod N) mod N)%nat.
Proof. intros HN. unfold prod_sigma. apply mod_mul_add. apply mod_lt_pos. assumption. Qed.

Lemma mod_add_regroup (N x a a' : nat) :
  (((x + a) mod N + a') mod N = (x + (a + a') mod N) mod N)%nat.
Proof.
  rewrite Nat.Div0.add_mod_idemp_l, Nat.Div0.add_mod_idemp_r, Nat.add_assoc.
  reflexivity.
Qed.

Lemma prod_sigma_compose (N k l i : nat) :
  (1 <= N)%nat ->
  prod_sigma N l (prod_sigma N k i) = prod_sigma N (prod_sigma N l k) i.
Proof.
  intros HN. unfold prod_sigma at 1 3.
  rewrite !prod_sigma_div, !prod_sigma_mod by assumption.
  rewrite (mod_add_regroup N (i / N)), (mod_add_regroup N (i mod N)).
  reflexivity.
Qed.

Lemma prod_perm_as_sigma (N k : nat) :
  (k < N * N)%nat ->
  prod_perm N k
  = tabulate (N * N) (N * N)
      (fun i j => if (j =? prod_sigma N k i)%nat then 1%Z else 0%Z).
Proof.
  intros Hk. unfold prod_perm. apply tabulate_ext.
  intros i j Hi Hj. apply prod_entry_sigma; assumption.
Qed.

Lemma prod_perm_matmul (N k l : nat) :
  (k < N * N)%nat -> (l < N * N)%nat ->
  matmul (prod_perm N k) (prod_perm N l) = prod_perm N (prod_sigma N l k).
Proof.
  intros Hk Hl.
  assert (HN : (1 <= N)%nat) by (destruct N; simpl in Hk; lia).
  rewrite (prod_perm_as_sigma N k Hk).
  rewrite (prod_perm_as_sigma N (prod_sigma N l k)) by (apply prod_sigma_lt; assumption).
  unfold prod_perm at 1.
  rewrite matmul_tabulate_perm by (try nia; intros; apply prod_sigma_lt; assumption).
  apply tabulate_ext. intros i j Hi Hj.
  rewrite prod_entry_sigma by (try apply prod_sigma_lt; assumption).
  rewrite prod_sigma_compose by assumption. reflexivity.
Qed.

(** X17: the list returned by [get_cyclic_product_reps] is closed under
    matrix product: the product of the matrices at indices [k] and [l] is
    the matrix at the index obtained by adding the theta parts and the phi
    parts of [k] and [l] modulo [N]. *)
Theorem product_reps_group :
  forall N k l : nat,
    (k < N ^ 2)%nat -> (l < N ^ 2)%nat ->
    exists reps : list ZMatrix,
      get_cyclic_product_reps N = Some reps /\
      (shift_index N (l / N) (l mod N) k < N ^ 2)%nat /\
      matmul (nth k reps []) (nth l reps [])
      = nth (shift_index N (l / N) (l mod N) k) reps [].
Proof.
  intros N k l Hk Hl. rewrite pow2_mul in *.
  assert (HN : (1 <= N)%nat) by (destruct N; simpl in Hk; lia).
  exists (map (prod_perm N) (seq 0 (N * N))).
  split; [apply get_cyclic_product_reps_eq; assumption|].
  split; [apply shift_index_lt; assumption|].
  rewrite !nth_map_seq by (try apply shift_index_lt; assumption). cbn [Nat.add].
  apply prod_perm_matmul; assumption.
Qed.

Lemma product_reps_group_witness :
  exists reps : list ZMatrix,
    get_cyclic_product_reps 2 = Some reps /\
    (shift_index 2 (3 / 2) (3 mod 2) 1 < 2 ^ 2)%nat /\
    matmul (nth 1 reps []) (nth 3 reps [])
    = nth (shift_index 2 (3 / 2) (3 mod 2) 1) reps [].
Proof. apply (product_reps_group 2 1 3); simpl; lia. Defined.

Lemma prod_sigma_eqb (N k i j : nat) :
  (i < N * N)%nat -> (j < N * N)%nat -> (k < N * N)%nat ->
  (prod_sigma N k j =? prod_sigma N k i)%nat = (i =? j)%nat.
Proof.
  intros Hi Hj Hk. destruct (Nat.eqb_spec i j) as [->|Hne]; [apply Nat.eqb_refl|].
  apply Nat.eqb_neq. intros E. apply Hne.
  rewrite <- (prod_tau_sigma N k i Hi Hk), <- (prod_tau_sigma N k j Hj Hk), E.
  reflexivity.
Qed.

(** X18: the matrix at index [a * N + b] of [get_cyclic_product_reps N] is
    the transpose of the Kronecker product of the cyclic representations of
    [a] and [b], and it is the inverse of that product. *)
Theorem product_reps_are_inverses :
  forall N a b : nat,
    (a < N)%nat -> (b < N)%nat ->
    exists (G reps : list ZMatrix),
      get_cyclic_reps N = Some G /\
      get_cyclic_product_reps N = Some reps /\
      nth (a * N + b) reps [] = transpose (kron (nth a G []) (nth b G [])) /\
      matmul (nth (a * N + b) reps []) (kron (nth a G []) (nth b G []))
      = identity_matrix (N ^ 2).
Proof.
  intros N a b Ha Hb. assert (HN : (1 <= N)%nat) by lia.
  pose proof (flat_index_lt N a b Ha Hb) as Hk.
  exists (map (cyc_perm N) (seq 0 N)), (map (prod_perm N) (seq 0 (N * N))).
  split; [apply get_cyclic_reps_eq; assumption|].
  split; [apply get_cyclic_product_reps_eq; assumption|].
  rewrite !nth_map_seq by assumption. cbn [Nat.add].
  assert (E : kron (cyc_perm N a) (cyc_perm N b)
              = tabulate (N * N) (N * N) (fun i j => prod_entry N (a * N + b) j i)).
  { unfold cyc_perm. rewrite kron_tabulate. apply tabulate_ext. intros i j _ _.
    unfold prod_entry. rewrite div_mul_add, mod_mul_add by assumption. reflexivity. }
  rewrite E. split.
  - rewrite transpose_tabulate by nia. reflexivity.
  - rewrite (prod_perm_as_sigma N (a * N + b) Hk).
    rewrite matmul_tabulate_perm by (try nia; intros; apply prod_sigma_lt; assumption).
    rewrite pow2_mul. unfold identity_matrix. apply tabulate_ext. intros i j Hi Hj.
    rewrite prod_entry_sigma by (try apply prod_sigma_lt; assumption).
    rewrite prod_sigma_eqb by assumption. rewrite Nat.eqb_sym. reflexivity.
Qed.

Lemma product_reps_are_inverses_witness :
  exists (G reps : list ZMatrix),
    get_cyclic_reps 3 = Some G /\
    get_cyclic_product_reps 3 = Some reps /\
    nth (1 * 3 + 2) reps [] = transpose (kron (nth 1 G []) (nth 2 G [])) /\
    matmul (nth (1 * 3 + 2) reps []) (kron (nth 1 G []) (nth 2 G []))
    = identity_matrix (3 ^ 2).
Proof. apply (product_reps_are_inverses 3 1 2); lia. Defined.

(** ** The reconstructed matrix *)

Lemma diff_shift_invariant (N x y a : nat) :
  (x < N)%nat -> (y < N)%nat ->
  (((y + a) mod N + N - (x + a) mod N) mod N = (y + N - x) mod N)%nat.
Proof.
  intros Hx Hy.
  assert (HN : (1 <= N)%nat) by lia.
  pose proof (mod_lt_pos N (y + N - x) HN) as Hw.
  pose proof (mod_lt_pos N (x + a) HN) as Hu.
  rewrite <- (shift_back_forth N y x Hy ltac:(lia)) at 1.
  rewrite mod_add_regroup.
  apply shift_forth_back; lia.
Qed.

Lemma shift_index_div (N a b i : nat) :
  (1 <= N)%nat -> (shift_index N a b i / N = (i / N + a) mod N)%nat.
Proof. intros HN. unfold shift_index. apply div_mul_add. apply mod_lt_pos. assumption. Qed.

Lemma shift_index_mod (N a b i : nat) :
  (1 <= N)%nat -> (shift_index N a b i mod N = (i mod N + b) mod N)%nat.
Proof. intros HN. unfold shift_index. apply mod_mul_add. apply mod_lt_pos. assumption. Qed.

Lemma kappa_shift_invariant (N a b i j : nat) :
  (i < N * N)%nat -> (j < N * N)%nat ->
  kappa N (shift_index N a b i) (shift_index N a b j) = kappa N i j.
Proof.
  intros Hi Hj.
  assert (HN : (1 <= N)%nat) by (destruct N; simpl in Hi; lia).
  unfold kappa. rewrite !shift_index_div, !shift_index_mod by assumption.
  rewrite !diff_shift_invariant
    by first [apply div_lt_sq; assumption | apply mod_lt_pos; assumption].
  reflexivity.
Qed.

Lemma kappa_first_row (N j : nat) : (j < N * N)%nat -> kappa N 0 j = j.
Proof.
  intros Hj. assert (HN : (1 <= N)%nat) by (destruct N; simpl in Hj; lia).
  unfold kappa. rewrite Nat.Div0.div_0_l, Nat.Div0.mod_0_l, !Nat.sub_0_r.
  replace (j / N + N)%nat with (j / N + 1 * N)%nat by lia.
  replace (j mod N + N)%nat with (j mod N + 1 * N)%nat by lia.
  rewrite !Nat.Div0.mod_add, Nat.Div0.mod_mod.
  rewrite (Nat.mod_small (j / N)) by (apply div_lt_sq; assumption).
  symmetry. rewrite Nat.mul_comm. apply Nat.div_mod_eq.
Qed.

Lemma kappa_zero_iff (N i j : nat) :
  (i < N * N)%nat -> (j < N * N)%nat -> kappa N i j = 0%nat <-> i = j.
Proof.
  intros Hi Hj. assert (HN : (1 <= N)%nat) by (destruct N; simpl in Hi; lia).
  pose proof (div_lt_sq N i Hi) as Hid. pose proof (div_lt_sq N j Hj) as Hjd.
  pose proof (mod_lt_pos N i HN) as Him. pose proof (mod_lt_pos N j HN) as Hjm.
  pose proof (shift_eq_iff N 0 (j / N) (i / N) ltac:(lia) Hjd ltac:(lia)) as E1.
  pose proof (shift_eq_iff N 0 (j mod N) (i mod N) ltac:(lia) Hjm ltac:(lia)) as E2.
  rewrite Nat.add_0_l in E1, E2.
  rewrite (Nat.mod_small (i / N)) in E1 by assumption.
  rewrite (Nat.mod_small (i mod N)) in E2 by assumption.
  unfold kappa. split.
  - intros H.
    assert (H1 : ((j / N + N - i / N) mod N = 0)%nat) by nia.
    assert (H2 : ((j mod N + N - i mod N) mod N = 0)%nat) by nia.
    rewrite (Nat.div_mod_eq i N), (Nat.div_mod_eq j N).
    rewrite (proj1 E1 (eq_sym H1)), (proj1 E2 (eq_sym H2)). reflexivity.
  - intros ->.
    rewrite <- (proj2 E1 eq_refl), <- (proj2 E2 eq_refl). reflexivity.
Qed.

(** X19: whatever the kernel, the matrix assembled by the driver loop is
    block-circulant: its entries do not change when the same group element
    [(a, b)] of Z_N x Z_N acts on the row and on the column index. *)
Theorem driver_approx_block_circulant :
  forall (N : nat) (kernel : Kernel) (lamb R r : R) (self_interact : bool)
         (a b i j : nat),
    (i < N ^ 2)%nat -> (j < N ^ 2)%nat ->
    exists approx : RMatrix,
      driver_approx N kernel lamb R r self_interact = Some approx /\
      rentry approx (shift_index N a b i) (shift_index N a b j) = rentry approx i j.
Proof.
  intros N kernel lamb R r si a b i j Hi Hj. rewrite pow2_mul in *.
  assert (HN : (1 <= N)%nat) by (destruct N; simpl in Hi; lia).
  eexists. split; [apply driver_approx_eq; assumption|].
  unfold rentry. rewrite !entry_tabulate by (try apply shift_index_lt; assumption).
  rewrite kappa_shift_invariant by assumption. reflexivity.
Qed.

Lemma driver_approx_block_circulant_witness :
  exists approx : RMatrix,
    driver_approx 4 square_distance_kernel (-1) 1 (1/20) true = Some approx /\
    rentry approx (shift_index 4 1 0 0) (shift_index 4 1 0 1) = rentry approx 0 1.
Proof.
  apply (driver_approx_block_circulant 4 square_distance_kernel (-1) 1 (1/20) true 1 0 0 1);
    simpl; lia.
Defined.

(** X20: when the logarithm is evaluated at positive distances only, the
    first row of the matrix assembled by the driver loop is the filter
    itself, and its diagonal is constant, equal to the first entry of the
    filter. *)
Theorem driver_approx_first_row_and_diagonal :
  forall (N : nat) (kernel : Kernel) (lamb R r : R) (self_interact : bool),
    (1 <= N)%nat ->
    log_evaluations_defined N kernel R r self_interact ->
    exists approx : RMatrix,
      driver_approx N kernel lamb R r self_interact = Some approx /\
      nth 0 approx [] = get_filter N kernel lamb R r self_interact /\
      (forall i, (i < N ^ 2)%nat ->
         rentry approx i i
         = lamb * matrix_entry 0 0 N kernel R r self_interact + 1).
Proof.
  intros N kernel lamb R r si HN _. rewrite pow2_mul.
  eexists. split; [apply driver_approx_eq; assumption|]. split.
  - rewrite nth_tabulate by nia.
    apply (nth_ext _ _ 0 0).
    + rewrite length_map, length_seq, length_get_filter, pow2_mul by assumption.
      reflexivity.
    + intros j Hj. rewrite length_map, length_seq in Hj.
      rewrite nth_map_seq by assumption. cbn [Nat.add].
      rewrite kappa_first_row by assumption. reflexivity.
  - intros i Hi. unfold rentry. rewrite entry_tabulate by assumption.
    rewrite (proj2 (kappa_zero_iff N i i Hi Hi) eq_refl). reflexivity.
Qed.

Lemma driver_approx_first_row_and_diagonal_witness :
  exists approx : RMatrix,
    driver_approx 4 square_distance_kernel (-1) 1 (1/20) true = Some approx /\
    nth 0 approx [] = get_filter 4 square_distance_kernel (-1) 1 (1/20) true /\
    (forall i, (i < 4 ^ 2)%nat ->
       rentry approx i i
       = -1 * matrix_entry 0 0 4 square_distance_kernel 1 (1/20) true + 1).
Proof.
  apply (driver_approx_first_row_and_diagonal 4 square_distance_kernel (-1) 1 (1/20) true);
    [ lia | apply log_defined_other_kernel; exact square_distance_kernel_not_log ].
Defined.

(** X21: the reconstruction is exact in the degenerate cases: when
    [lamb = 0], [r = 0] or [N = 1], and the logarithm is evaluated at
    positive distances only, the matrix assembled by the driver loop equals
    [full_matrix] entry by entry. *)
Theorem driver_approx_exact_when_degenerate :
  forall (N : nat) (kernel : Kernel) (lamb R r : R) (self_interact : bool),
    (1 <= N)%nat ->
    log_evaluations_defined N kernel R r self_interact ->
    lamb = 0 \/ r = 0 \/ N = 1%nat ->
    exists approx : RMatrix,
      driver_approx N kernel lamb R r self_interact = Some approx /\
      (forall i j, (i < N ^ 2)%nat -> (j < N ^ 2)%nat ->
         rentry approx i j
         = rentry (full_matrix N kernel lamb R r self_interact) i j).
Proof.
  intros N kernel lamb R r si HN _ H. rewrite pow2_mul.
  eexists. split; [apply driver_approx_eq; assumption|].
  intros i j Hi Hj. rewrite approx_entry_first_row by assumption.
  destruct H as [H | [H | H]].
  - rewrite !full_matrix_entry by (rewrite pow2_mul; try apply kappa_lt; nia).
    rewrite H, !Rmult_0_l, !Rplus_0_l.
    pose proof (kappa_zero_iff N i j Hi Hj) as E.
    rewrite (Nat.eqb_sym 0).
    destruct (Nat.eqb_spec (kappa N i j) 0); destruct (Nat.eqb_spec i j);
      try reflexivity; exfalso; tauto.
  - rewrite !full_matrix_entry by (rewrite pow2_mul; try apply kappa_lt; nia).
    pose proof (kappa_zero_iff N i j Hi Hj) as E.
    assert (Z0 : forall x y, matrix_entry x y N kernel R r si = 0).
    { intros x y. unfold matrix_entry. rewrite H.
      destruct ((x =? y)%nat && negb si); ring. }
    rewrite !Z0.
    rewrite (Nat.eqb_sym 0).
    destruct (Nat.eqb_spec (kappa N i j) 0); destruct (Nat.eqb_spec i j);
      try reflexivity; exfalso; tauto.
  - subst N. assert (i = 0%nat) by lia. assert (j = 0%nat) by lia. subst i j.
    reflexivity.
Qed.

Lemma driver_approx_exact_when_degenerate_witness :
  exists approx : RMatrix,
    driver_approx 4 exp_kernel 0 1 (1/20) true = Some approx /\
    (forall i j, (i < 4 ^ 2)%nat -> (j < 4 ^ 2)%nat ->
       rentry approx i j = rentry (full_matrix 4 exp_kernel 0 1 (1/20) true) i j).
Proof.
  apply (driver_approx_exact_when_degenerate 4 exp_kernel 0 1 (1/20) true);
    [ lia | apply log_defined_other_kernel; exact exp_kernel_not_log
    | left; reflexivity ].
Defined.

(** ** The error metric *)

Lemma sum_abs_diff (sol f_vec : list R) :
  length sol = length f_vec ->
  0 <= fold_right Rplus 0 (map (fun p => Rabs (fst p - snd p)) (combine sol f_vec)) /\
  (fold_right Rplus 0 (map (fun p => Rabs (fst p - snd p)) (combine sol f_vec)) = 0
   <-> sol = f_vec).
Proof.
  revert f_vec. induction sol as [|x sol IH]; intros [|y f_vec] Hlen;
    try discriminate.
  - simpl. split; [lra | split; reflexivity].
  - simpl in Hlen. injection Hlen as Hlen. destruct (IH f_vec Hlen) as [Hge Hiff].
    cbn [combine map fold_right fst snd].
    pose proof (Rabs_pos (x - y)) as Hx. split; [lra|]. split.
    + intros H.
      assert (Hxy : Rabs (x - y) = 0) by lra.
      assert (Hrest : fold_right Rplus 0
                        (map (fun p => Rabs (fst p - snd p)) (combine sol f_vec)) = 0)
        by lra.
      apply Hiff in Hrest. subst f_vec. f_equal.
      destruct (Req_dec (x - y) 0) as [E | E]; [lra|].
      apply Rabs_no_R0 in E. contradiction.
    + intros E. injection E as -> ->.
      rewrite (proj2 Hiff eq_refl). unfold Rminus. rewrite Rplus_opp_r, Rabs_R0. lra.
Qed.

(** X22: for a computed and a reference vector of the same positive
    length, the error recorded by the driver is never negative, and it is
    zero exactly when the two vectors are equal. *)
Theorem mean_abs_error_zero_iff :
  forall sol f_vec : list R,
    length sol = length f_vec -> sol <> [] ->
    0 <= mean_abs_error sol f_vec /\
    (mean_abs_error sol f_vec = 0 <-> sol = f_vec).
Proof.
  intros sol f_vec Hlen Hne. unfold mean_abs_error.
  destruct (sum_abs_diff sol f_vec Hlen) as [Hge Hiff].
  assert (Hn : 0 < INR (length (combine sol f_vec))).
  { apply lt_0_INR. rewrite length_combine, <- Hlen, Nat.min_id.
    destruct sol; [contradiction | simpl; lia]. }
  set (S := fold_right Rplus 0 (map (fun p => Rabs (fst p - snd p)) (combine sol f_vec)))
    in *.
  set (n := INR (length (combine sol f_vec))) in *.
  assert (Hinv : 0 < / n) by (apply Rinv_0_lt_compat; assumption).
  split.
  - unfold Rdiv. apply Rmult_le_pos; lra.
  - rewrite <- Hiff. unfold Rdiv. split.
    + intros H. apply Rmult_integral in H. destruct H; lra.
    + intros ->. ring.
Qed.

Lemma mean_abs_error_zero_iff_witness :
  0 <= mean_abs_error [1; 2] [1; 3] /\
  (mean_abs_error [1; 2] [1; 3] = 0 <-> [1; 2] = [1; 3]).
Proof.
  apply (mean_abs_error_zero_iff [1; 2] [1; 3]); [reflexivity | discriminate].
Defined.

(** ** Sign and mirror symmetries of the assembled matrix *)

(** X23: for [N >= 1], on a torus with [0 <= r <= R] the entries computed
    by [matrix_entry] with the exponential or the squared-distance kernel
    are never negative. *)
Theorem matrix_entry_nonneg :
  forall (N i j : nat) (kernel : Kernel) (R r : R) (self_interact : bool),
    (1 <= N)%nat ->
    In kernel [exp_kernel; square_distance_kernel] ->
    0 <= r <= R ->
    0 <= matrix_entry i j N kernel R r self_interact.
Proof.
  intros N i j kernel R r si _ HK [Hr HR]. unfold matrix_entry.
  destruct ((i =? j)%nat && negb si); [lra|].
  set (theta2 := INR (j / N) * (2 * PI / INR N)).
  assert (Hw : 0 <= R + r * cos theta2).
  { pose proof (COS_bound theta2) as [Hc _]. nra. }
  assert (Hq : 0 <= (2 * PI / INR N) ^ 2) by apply pow2_ge_0.
  assert (Hk : forall p q, 0 <= kernel p q).
  { intros p q. destruct HK as [<- | [<- | []]].
    - left. apply exp_pos.
    - rewrite square_distance_value. apply sum_squares_nonneg. }
  apply Rmult_le_pos; [|exact Hw].
  apply Rmult_le_pos; [|exact Hr].
  apply Rmult_le_pos; [exact Hq | apply Hk].
Qed.

Lemma matrix_entry_nonneg_witness :
  0 <= matrix_entry 1 6 4 square_distance_kernel 1 (1/20) true.
Proof.
  apply (matrix_entry_nonneg 4 1 6 square_distance_kernel 1 (1/20) true);
    [ lia | right; left; reflexivity | lra ].
Defined.

Lemma cos_2PI_minus (x : R) : cos (2 * PI - x) = cos x.
Proof. rewrite cos_minus, cos_2PI, sin_2PI. ring. Qed.

Lemma sin_2PI_minus (x : R) : sin (2 * PI - x) = - sin x.
Proof. rewrite sin_minus, cos_2PI, sin_2PI. ring. Qed.

Lemma opposite_angle (N a : nat) :
  (1 <= N)%nat -> (a < N)%nat ->
  cos (INR ((N - a) mod N) * (2 * PI / INR N)) = cos (INR a * (2 * PI / INR N)) /\
  sin (INR ((N - a) mod N) * (2 * PI / INR N)) = - sin (INR a * (2 * PI / INR N)).
Proof.
  intros HN Ha.
  assert (HN0 : INR N <> 0) by (apply not_0_INR; lia).
  rewrite cos_grid_mod, sin_grid_mod by assumption.
  rewrite minus_INR by lia.
  replace ((INR N - INR a) * (2 * PI / INR N))
    with (2 * PI - INR a * (2 * PI / INR N)) by (field; assumption).
  split; [apply cos_2PI_minus | apply sin_2PI_minus].
Qed.

Lemma opposite_involutive (N a : nat) :
  (a < N)%nat -> ((N - (N - a) mod N) mod N = a)%nat.
Proof.
  intros Ha. destruct a as [|a].
  - rewrite Nat.sub_0_r, Nat.Div0.mod_same, Nat.sub_0_r. apply Nat.Div0.mod_same.
  - rewrite (Nat.mod_small (N - S a)) by lia.
    replace (N - (N - S a))%nat with (S a) by lia. apply Nat.mod_small. assumption.
Qed.

Lemma reflect_theta_involutive (N i : nat) :
  (i < N * N)%nat -> reflect_theta N (reflect_theta N i) = i.
Proof.
  intros Hi. assert (HN : (1 <= N)%nat) by (destruct N; simpl in Hi; lia).
  unfold reflect_theta.
  rewrite div_mul_add, mod_mul_add by (apply mod_lt_pos; assumption).
  rewrite opposite_involutive by (apply div_lt_sq; assumption).
  symmetry. rewrite Nat.mul_comm. apply Nat.div_mod_eq.
Qed.

Lemma reflect_phi_involutive (N i : nat) :
  (i < N * N)%nat -> reflect_phi N (reflect_phi N i) = i.
Proof.
  intros Hi. assert (HN : (1 <= N)%nat) by (destruct N; simpl in Hi; lia).
  unfold reflect_phi.
  rewrite div_mul_add, mod_mul_add by (apply mod_lt_pos; assumption).
  rewrite opposite_involutive by (apply mod_lt_pos; assumption).
  symmetry. rewrite Nat.mul_comm. apply Nat.div_mod_eq.
Qed.

Lemma involution_eqb (h : nat -> nat) (n i j : nat) :
  (forall k, (k < n)%nat -> h (h k) = k) ->
  (i < n)%nat -> (j < n)%nat -> (h i =? h j)%nat = (i =? j)%nat.
Proof.
  intros Hh Hi Hj. destruct (Nat.eqb_spec i j) as [->|Hne]; [apply Nat.eqb_refl|].
  apply Nat.eqb_neq. intros E. apply Hne.
  rewrite <- (Hh i Hi), <- (Hh j Hj), E. reflexivity.
Qed.

Lemma matrix_entry_reflect_theta (N i j : nat) (K : Kernel) (R r : R) (si : bool) :
  distance_kernel K -> (i < N * N)%nat -> (j < N * N)%nat ->
  matrix_entry (reflect_theta N i) (reflect_theta N j) N K R r si
  = matrix_entry i j N K R r si.
Proof.
  intros [h Hh] Hi Hj.
  assert (HN : (1 <= N)%nat) by (destruct N; simpl in Hi; lia).
  unfold matrix_entry.
  rewrite (involution_eqb (reflect_theta N) (N * N))
    by (try apply reflect_theta_involutive; assumption).
  destruct ((i =? j)%nat && negb si); [reflexivity|].
  unfold reflect_theta.
  rewrite !div_mul_add, !mod_mul_add by (apply mod_lt_pos; assumption).
  destruct (opposite_angle N (i / N) HN (div_lt_sq N i Hi)) as [Ci Si].
  destruct (opposite_angle N (j / N) HN (div_lt_sq N j Hj)) as [Cj Sj].
  rewrite !Hh. unfold torus_point, norm, psub. cbn [px py pz].
  rewrite Ci, Si, Cj, Sj. do 5 f_equal. ring.
Qed.

Lemma matrix_entry_reflect_phi (N i j : nat) (K : Kernel) (R r : R) (si : bool) :
  distance_kernel K -> (i < N * N)%nat -> (j < N * N)%nat ->
  matrix_entry (reflect_phi N i) (reflect_phi N j) N K R r si
  = matrix_entry i j N K R r si.
Proof.
  intros [h Hh] Hi Hj.
  assert (HN : (1 <= N)%nat) by (destruct N; simpl in Hi; lia).
  unfold matrix_entry.
  rewrite (involution_eqb (reflect_phi N) (N * N))
    by (try apply reflect_phi_involutive; assumption).
  destruct ((i =? j)%nat && negb si); [reflexivity|].
  unfold reflect_phi.
  rewrite !div_mul_add, !mod_mul_add by (apply mod_lt_pos; assumption).
  destruct (opposite_angle N (i mod N) HN (mod_lt_pos N i HN)) as [Ci Si].
  destruct (opposite_angle N (j mod N) HN (mod_lt_pos N j HN)) as [Cj Sj].
  rewrite !Hh. unfold torus_point, norm, psub. cbn [px py pz].
  rewrite Ci, Si, Cj, Sj. do 5 f_equal. ring.
Qed.

Lemma reflect_theta_lt (N i : nat) : (1 <= N)%nat -> (reflect_theta N i < N * N)%nat.
Proof.
  intros HN. unfold reflect_theta. apply flat_index_lt; apply mod_lt_pos; assumption.
Qed.

Lemma reflect_phi_lt (N i : nat) :
  (i < N * N)%nat -> (reflect_phi N i < N * N)%nat.
Proof.
  intros Hi. assert (HN : (1 <= N)%nat) by (destruct N; simpl in Hi; lia).
  unfold reflect_phi.
  apply flat_index_lt; [apply div_lt_sq | apply mod_lt_pos]; assumption.
Qed.

(** X24: for the three kernels, the logarithm being evaluated at positive
    distances only, [full_matrix] is invariant under the two mirror
    symmetries of the torus grid: replacing the theta index of both the row
    and the column by its opposite modulo [N], and likewise for the phi
    index. *)
Theorem full_matrix_reflection_invariance :
  forall (N : nat) (kernel : Kernel) (lamb R r : R) (self_interact : bool)
         (i j : nat),
    In kernel [log_kernel; exp_kernel; square_distance_kernel] ->
    log_evaluations_defined N kernel R r self_interact ->
    (i < N ^ 2)%nat -> (j < N ^ 2)%nat ->
    let M := full_matrix N kernel lamb R r self_interact in
    rentry M (reflect_theta N i) (reflect_theta N j) = rentry M i j /\
    rentry M (reflect_phi N i) (reflect_phi N j) = rentry M i j.
Proof.
  intros N kernel lamb R r si i j HK _ Hi Hj M. subst M. rewrite pow2_mul in *.
  assert (HN : (1 <= N)%nat) by (destruct N; simpl in Hi; lia).
  apply builtin_kernels_distance in HK.
  rewrite !full_matrix_entry
    by (rewrite pow2_mul; first [apply reflect_theta_lt | apply reflect_phi_lt | idtac];
        assumption).
  rewrite matrix_entry_reflect_theta, matrix_entry_reflect_phi by assumption.
  rewrite (involution_eqb (reflect_theta N) (N * N))
    by (try apply reflect_theta_involutive; assumption).
  rewrite (involution_eqb (reflect_phi N) (N * N))
    by (try apply reflect_phi_involutive; assumption).
  split; reflexivity.
Qed.

Lemma full_matrix_reflection_invariance_witness :
  let M := full_matrix 4 log_kernel (-1) 1 (1/20) false in
  rentry M (reflect_theta 4 5) (reflect_theta 4 2) = rentry M 5 2 /\
  rentry M (reflect_phi 4 5) (reflect_phi 4 2) = rentry M 5 2.
Proof.
  apply (full_matrix_reflection_invariance 4 log_kernel (-1) 1 (1/20) false 5 2);
    [ left; reflexivity | apply log_defined_on_proper_torus; lra
    | simpl; lia | simpl; lia ].
Defined.
